(** * TravelData: the ordered itinerary store of [data_class.py]

    A shallow embedding of the [TravelData] class.  The store is a Python
    [OrderedDict] from location names to tuples; it is embedded as an
    association list whose keys are pairwise distinct, with the dictionary
    operations of Python written out ([d[k] = v] keeps the position of a key
    already present and appends a new key, [d.update(o)] assigns the items of
    [o] in order, [d.pop(k)] removes the key).  The pickle codec and the
    geocoding service are external collaborators and enter as interfaces. *)

From Stdlib Require Import ZArith List String Bool Lia Floats Permutation Sorted.
Import ListNotations.
Open Scope string_scope.
Open Scope list_scope.
Open Scope Z_scope.

(** ** Location details

    The values of [self.data] are tuples.  [add_location], [change_transport]
    and [change_country] build five-tuples
    [(country, lat, lon, days, transport)]; [change_days] builds four-tuples
    [(country, lat, lon, days)].  The arity matters to tuple unpacking, so both
    shapes are kept. *)
Inductive details : Type :=
| Tuple5 (country : string) (lat lon : float) (days : Z) (transport : string)
| Tuple4 (country : string) (lat lon : float) (days : Z).

(** [details[0]] *)
Definition details_0 (t : details) : string :=
  match t with
  | Tuple5 c _ _ _ _ => c
  | Tuple4 c _ _ _ => c
  end.

(** [details[3]] *)
Definition details_3 (t : details) : Z :=
  match t with
  | Tuple5 _ _ _ d _ => d
  | Tuple4 _ _ _ d => d
  end.

(** ** Ordered dictionaries with string keys *)
Module OrderedDict.

Section Ops.
Context {V : Type}.

Definition t : Type := list (string * V).

(** [k in d] *)
Fixpoint contains (k : string) (d : t) : bool :=
  match d with
  | [] => false
  | (k', _) :: r => (k' =? k)%string || contains k r
  end.

(** [d[k]], [None] standing for [KeyError] *)
Fixpoint get (k : string) (d : t) : option V :=
  match d with
  | [] => None
  | (k', v) :: r => if (k' =? k)%string then Some v else get k r
  end.

(** [d[k] = v]: a key already present keeps its position and takes the new
    value, a new key goes to the end. *)
Fixpoint setitem (k : string) (v : V) (d : t) : t :=
  match d with
  | [] => [(k, v)]
  | (k', v') :: r =>
      if (k' =? k)%string then (k', v) :: r else (k', v') :: setitem k v r
  end.

(** [del d[k]] *)
Fixpoint delitem (k : string) (d : t) : t :=
  match d with
  | [] => []
  | (k', v') :: r =>
      if (k' =? k)%string then r else (k', v') :: delitem k r
  end.

(** [d.pop(k)]: the value and the dictionary without the key *)
Definition pop (k : string) (d : t) : option (V * t) :=
  match get k d with
  | Some v => Some (v, delitem k d)
  | None => None
  end.

(** [d.update(other)] *)
Definition update (d other : t) : t :=
  fold_left (fun acc kv => setitem (fst kv) (snd kv) acc) other d.

Definition keys (d : t) : list string := map fst d.

Definition values (d : t) : list V := map snd d.

End Ops.

Arguments t : clear implicits.

End OrderedDict.

Import OrderedDict.

Notation odict := OrderedDict.t.

(** ** External collaborators *)

(** What [self.geolocator.geocode] does: a location, no result ([None]), or
    [GeocoderTimedOut] raised. *)
Inductive geo_result : Type :=
| Found (latitude longitude : float)
| NotFound
| TimedOut.

Class Geolocator : Type := {
  geocode : string -> geo_result
}.

(** [pickle.dump] and [pickle.load] on the contents of the data file;
    [pickle_load] gives [None] where [pickle.load] raises. *)
Class Pickler (bytes : Type) : Type := {
  pickle_dump : odict details -> bytes;
  pickle_load : bytes -> option (odict details)
}.

(** ** Printed lines *)
Inductive message : Type :=
| MsgSaved
| MsgSaveError
| MsgLoaded
| MsgLoadError
| MsgNoExistingData
| MsgNoCoordinates (location : string)
| MsgGeocodeTimedOut
| MsgSkipping (name : string)
| MsgAdded (name : string) (days : Z) (transport : string) (lat lon : float)
| MsgRemoved (name : string)
| MsgNotInData (name : string)
| MsgNotInTravelList (name : string)
| MsgMoved (name position : string)
| MsgCleared
| MsgTotalDays (total : Z)
| MsgDaysPerCountryHeader
| MsgCountryDays (country : string) (days : Z)
| MsgUpdatedDays (name : string) (days : Z)
| MsgUpdatedTransport (name transport : string)
| MsgUpdatedCountry (name country : string)
| MsgRenamed (old_name new_name : string).

Inductive exn : Type :=
| ValueError.

(** ** The store *)
Section Store.
Context {bytes : Type} {P : Pickler bytes} {G : Geolocator}.

(** The object together with the part of the world it acts on: [data] is
    [self.data], [file] the contents of the file at [self.file_path] ([None]
    when the path does not exist), [writable] whether writing that file
    succeeds, [stdout] the lines printed so far. *)
Record TravelData : Type := mkTravelData {
  data : odict details;
  file : option bytes;
  writable : bool;
  stdout : list message
}.

(** How a method call ends: it returns a value, or an exception leaves it. *)
Inductive outcome (A : Type) : Type :=
| Returned (a : A) (s : TravelData)
| Raised (e : exn) (s : TravelData).

Arguments Returned {A} a s.
Arguments Raised {A} e s.

Definition state_of {A : Type} (o : outcome A) : TravelData :=
  match o with
  | Returned _ s => s
  | Raised _ s => s
  end.

Definition print (m : message) (s : TravelData) : TravelData :=
  mkTravelData (data s) (file s) (writable s) (stdout s ++ [m]).

Definition set_data (d : odict details) (s : TravelData) : TravelData :=
  mkTravelData d (file s) (writable s) (stdout s).

Definition save_data (s : TravelData) : TravelData :=
  if writable s
  then print MsgSaved
         (mkTravelData (data s) (Some (pickle_dump (data s))) (writable s) (stdout s))
  else print MsgSaveError s.

Definition load_data (s : TravelData) : TravelData :=
  match file s with
  | Some b =>
      match pickle_load b with
      | Some d => print MsgLoaded (set_data d s)
      | None => set_data [] (print MsgLoadError s)
      end
  | None => print MsgNoExistingData s
  end.

(** [TravelData(file_path)] in a world where the file holds [f] *)
Definition init (f : option bytes) (w : bool) : TravelData :=
  load_data (mkTravelData [] f w []).

Definition get_lat_lon (location : string) (s : TravelData)
  : option float * option float * TravelData :=
  match geocode location with
  | Found latitude longitude => (Some latitude, Some longitude, s)
  | NotFound => (None, None, print (MsgNoCoordinates location) s)
  | TimedOut => (None, None, print MsgGeocodeTimedOut s)
  end.

(** [after_place in self.data], where [after_place] may be [None] *)
Definition contains_opt (after_place : option string) (d : odict details) : bool :=
  match after_place with
  | Some a => contains a d
  | None => false
  end.

(** [key == after_place] *)
Definition key_is (key : string) (after_place : option string) : bool :=
  match after_place with
  | Some a => (key =? a)%string
  | None => false
  end.

(** The loop of the ["after"] branch, shared by [add_location] and
    [move_location]: it copies [self.data] into [updated_data] and assigns
    [name] right after the key [after_place]. *)
Definition place_after (name : string) (entry : details)
  (after_place : option string) (d updated_data : odict details) : odict details :=
  fold_left
    (fun upd kv =>
       let upd := setitem (fst kv) (snd kv) upd in
       if key_is (fst kv) after_place then setitem name entry upd else upd)
    d updated_data.

Definition add_location (name country : string) (days : Z) (transport : string)
  (position : string) (after_place : option string) (s : TravelData) : TravelData :=
  match get_lat_lon (name ++ ", " ++ country)%string s with
  | (Some lat, Some lon, s) =>
      let new_entry := Tuple5 country lat lon days transport in
      let s :=
        if (position =? "start")%string then
          set_data (update (setitem name new_entry []) (data s)) s
        else if (position =? "after")%string && contains_opt after_place (data s) then
          set_data (place_after name new_entry after_place (data s) []) s
        else
          set_data (setitem name new_entry (data s)) s in
      save_data (print (MsgAdded name days transport lat lon) s)
  | (_, _, s) => print (MsgSkipping name) s
  end.

Definition remove_location (name : string) (s : TravelData) : TravelData :=
  if contains name (data s)
  then save_data (print (MsgRemoved name) (set_data (delitem name (data s)) s))
  else print (MsgNotInData name) s.

Definition move_location (name new_position : string)
  (after_place : option string) (s : TravelData) : TravelData :=
  if negb (contains name (data s)) then print (MsgNotInTravelList name) s
  else
    match pop name (data s) with
    | Some (location_details, d) =>
        let updated_data :=
          if (new_position =? "start")%string then
            update (setitem name location_details []) d
          else if (new_position =? "after")%string && contains_opt after_place d then
            place_after name location_details after_place d []
          else
            setitem name location_details d in
        save_data (print (MsgMoved name new_position) (set_data updated_data s))
    | None => s
    end.

Definition clear_data (s : TravelData) : TravelData :=
  print MsgCleared (save_data (set_data [] s)).

Definition total_days (s : TravelData) : Z * TravelData :=
  let total := fold_left (fun acc t => acc + details_3 t) (values (data s)) 0 in
  (total, print (MsgTotalDays total) s).

(** [change_days] unpacks the stored tuple into four names and stores a
    four-tuple; unpacking a tuple of another length raises [ValueError]. *)
Definition change_days (name : string) (new_days : Z) (s : TravelData)
  : outcome unit :=
  if contains name (data s) then
    match get name (data s) with
    | Some (Tuple4 country lat lon _) =>
        let s := set_data (setitem name (Tuple4 country lat lon new_days) (data s)) s in
        Returned tt (save_data (print (MsgUpdatedDays name new_days) s))
    | _ => Raised ValueError s
    end
  else Returned tt (print (MsgNotInTravelList name) s).

Definition change_transport (name new_transport : string) (s : TravelData)
  : outcome unit :=
  if contains name (data s) then
    match get name (data s) with
    | Some (Tuple5 country lat lon days _) =>
        let s :=
          set_data (setitem name (Tuple5 country lat lon days new_transport) (data s)) s in
        Returned tt (save_data (print (MsgUpdatedTransport name new_transport) s))
    | _ => Raised ValueError s
    end
  else Returned tt (print (MsgNotInTravelList name) s).

Definition change_country (name new_country : string) (s : TravelData)
  : outcome unit :=
  if contains name (data s) then
    match get name (data s) with
    | Some (Tuple5 _ lat lon days transport) =>
        let s :=
          set_data (setitem name (Tuple5 new_country lat lon days transport) (data s)) s in
        Returned tt (save_data (print (MsgUpdatedCountry name new_country) s))
    | _ => Raised ValueError s
    end
  else Returned tt (print (MsgNotInTravelList name) s).

(** [self.data[new_name] = self.data.pop(old_name)]: the right-hand side is
    evaluated first, so the key is assigned in the dictionary that no longer
    has [old_name]. *)
Definition change_location_name (old_name new_name : string) (s : TravelData)
  : TravelData :=
  if contains old_name (data s) then
    match pop old_name (data s) with
    | Some (v, d) =>
        save_data (print (MsgRenamed old_name new_name) (set_data (setitem new_name v d) s))
    | None => s
    end
  else print (MsgNotInTravelList old_name) s.

(** [country_days[country] += days] on a [defaultdict(int)]: reading a
    missing key first stores the default [0] under it. *)
Definition defaultdict_getitem (k : string) (d : odict Z) : Z * odict Z :=
  match get k d with
  | Some v => (v, d)
  | None => (0, setitem k 0 d)
  end.

Definition iadd (k : string) (n : Z) (d : odict Z) : odict Z :=
  let (v, d) := defaultdict_getitem k d in
  setitem k (v + n) d.

(** [sorted(l, key=key)]: a stable sort, ascending in the key. *)
Fixpoint insert_by {A : Type} (key : A -> Z) (x : A) (l : list A) : list A :=
  match l with
  | [] => [x]
  | y :: r => if key x <=? key y then x :: y :: r else y :: insert_by key x r
  end.

Definition sorted {A : Type} (key : A -> Z) (l : list A) : list A :=
  fold_right (insert_by key) [] l.

Definition country_days_of (d : odict details) : odict Z :=
  fold_left (fun cd kv => iadd (details_0 (snd kv)) (details_3 (snd kv)) cd) d [].

(** The items in the order in which the loop of [days_per_country] prints them *)
Definition printed_order (country_days : odict Z) : list (string * Z) :=
  sorted (fun x => - snd x) country_days.

Definition days_per_country (s : TravelData) : odict Z * TravelData :=
  let country_days := country_days_of (data s) in
  let s := print MsgDaysPerCountryHeader s in
  let s :=
    fold_left (fun s x => print (MsgCountryDays (fst x) (snd x)) s)
      (printed_order country_days) s in
  (country_days, s).

End Store.

Arguments TravelData : clear implicits.
Arguments outcome : clear implicits.
Arguments Returned {bytes A} a s.
Arguments Raised {bytes A} e s.

(** ** The invariant of the store and the words of the specification *)

(** No two waypoints share a name. *)
Definition unique_names {V : Type} (d : odict V) : Prop := NoDup (keys d).

(** The countries of the waypoints, in sequence order *)
Definition countries (d : odict details) : list string :=
  map (fun kv => details_0 (snd kv)) d.

(** Each string once, in the order of first occurrence *)
Fixpoint first_seen (l : list string) : list string :=
  match l with
  | [] => []
  | c :: r => c :: filter (fun c' => negb (c' =? c)%string) (first_seen r)
  end.

(** The sum of the days of the waypoints with country [c] *)
Fixpoint total_for (c : string) (d : odict details) : Z :=
  match d with
  | [] => 0
  | (_, t) :: r =>
      if (details_0 t =? c)%string then details_3 t + total_for c r
      else total_for c r
  end.

(** The position of the waypoint named [k] in the sequence *)
Fixpoint index_of {V : Type} (k : string) (d : odict V) : option nat :=
  match d with
  | [] => None
  | (k', _) :: r =>
      if (k' =? k)%string then Some O else option_map S (index_of k r)
  end.

(** Ascending order of the keys, the order of [sorted] *)
Definition le_key {A : Type} (key : A -> Z) (a b : A) : Prop := key a <= key b.

(** Descending order of the totals *)
Definition descending (l : list (string * Z)) : Prop :=
  StronglySorted (fun x y => snd x >= snd y) l.

(** The entries with total [n], in the order in which [l] has them *)
Definition with_total (n : Z) (l : list (string * Z)) : list (string * Z) :=
  filter (fun x => snd x =? n) l.

(** A pickle codec is correct when loading gives back what was dumped. *)
Class PicklerCorrect {bytes : Type} (P : Pickler bytes) : Prop :=
  pickle_roundtrip : forall d, pickle_load (pickle_dump d) = Some d.

(** ** Concrete collaborators and stores for the examples *)

(** A codec whose file contents are the dictionary itself *)
Definition plain_pickler : Pickler (odict details) :=
  {| pickle_dump := fun d => d; pickle_load := fun b => Some b |}.

(** A geocoder that knows no Atlantis and times out on Slowtown *)
Definition atlas : Geolocator :=
  {| geocode := fun location =>
       if (location =? "Atlantis, Nowhere")%string then NotFound
       else if (location =? "Slowtown, Farland")%string then TimedOut
       else Found 59.5 10.75 |}.

Definition store_of (d : odict details) : TravelData (odict details) :=
  mkTravelData d None true [].

Definition oslo : details := Tuple5 "Norway" 59.5 10.75 4 "Plane".
Definition bangkok : details := Tuple5 "Thailand" 13.75 100.5 4 "Bus".
Definition krabi : details := Tuple5 "Thailand" 8.125 98.875 3 "Train".

Definition route : odict details :=
  [("Oslo", oslo); ("Bangkok", bangkok); ("Krabi", krabi)].

(** The scenario of the per-country totals: [A], [B] and [C] added at the end
    of an empty store *)
Definition scenario : TravelData (odict details) :=
  let P := plain_pickler in
  let G := atlas in
  add_location "C" "X" 1 "Unknown" "end" None
    (add_location "B" "Y" 3 "Unknown" "end" None
       (add_location "A" "X" 2 "Unknown" "end" None (init None true))).

(** ** Listing, export and distance

    The lines these methods print are kept apart from [stdout]: each method
    is given with the lines it prints, or the rows it writes, as its result. *)

Inductive listing_line : Type :=
| LineNoLocations
| LineListHeader
| LineLocation (i : Z) (place : string).

(** [for i, place in enumerate(self.data.keys(), start=1)] *)
Definition list_locations {bytes : Type} (s : TravelData bytes) : list listing_line :=
  match data s with
  | [] => [LineNoLocations]
  | _ =>
      LineListHeader ::
      snd (fold_left
             (fun st place => (fst st + 1, snd st ++ [LineLocation (fst st) place]))
             (keys (data s)) (1, []))
  end.

(** [details[1]] and [details[2]] *)
Definition details_1 (t : details) : float :=
  match t with
  | Tuple5 _ lat _ _ _ => lat
  | Tuple4 _ lat _ _ => lat
  end.

Definition details_2 (t : details) : float :=
  match t with
  | Tuple5 _ _ lon _ _ => lon
  | Tuple4 _ _ lon _ => lon
  end.

(** The cells handed to [csv.writer]; their text is the writer's business. *)
Inductive cell : Type :=
| CellStr (s : string)
| CellFloat (f : float)
| CellInt (z : Z).

(** [*details] *)
Definition cells_of (t : details) : list cell :=
  match t with
  | Tuple5 country lat lon days transport =>
      [CellStr country; CellFloat lat; CellFloat lon; CellInt days; CellStr transport]
  | Tuple4 country lat lon days =>
      [CellStr country; CellFloat lat; CellFloat lon; CellInt days]
  end.

Definition csv_header : list cell :=
  [CellStr "Location"; CellStr "Country"; CellStr "Latitude";
   CellStr "Longitude"; CellStr "Days"; CellStr "Transport"].

(** The rows [export_to_csv] writes to a file it can open, in the order of
    the [writerow] calls. *)
Definition export_to_csv {bytes : Type} (s : TravelData bytes) : list (list cell) :=
  fold_left (fun rows kv => rows ++ [CellStr (fst kv) :: cells_of (snd kv)])
    (data s) [csv_header].

(** [geodesic(loc1, loc2).km] of geopy *)
Class Geodesic : Type := {
  geodesic_km : float * float -> float * float -> float
}.

(** What [calculate_total_distance] returns: the integer [0] of the early
    return, or the float the loop has summed. *)
Inductive number : Type :=
| PyInt (z : Z)
| PyFloat (f : float).

Inductive distance_line : Type :=
| LineNotEnoughLocations
| LineTotalDistance (total_distance : float).

(** [(self.data[k][1], self.data[k][2])], [None] standing for [KeyError] *)
Definition location_of (k : string) (d : odict details) : option (float * float) :=
  match get k d with
  | Some t => Some (details_1 t, details_2 t)
  | None => None
  end.

(** One turn of the loop: the distance from [locations[i]] to
    [locations[i + 1]] is added to the total.  [None] stands for an
    [IndexError] or [KeyError]. *)
Definition add_leg {D : Geodesic} (d : odict details) (locations : list string)
  (total_distance : option float) (i : nat) : option float :=
  match total_distance, nth_error locations i, nth_error locations (S i) with
  | Some total, Some k1, Some k2 =>
      match location_of k1 d, location_of k2 d with
      | Some loc1, Some loc2 => Some (total + geodesic_km loc1 loc2)%float
      | _, _ => None
      end
  | _, _, _ => None
  end.

(** The total starts as the integer [0], which the first addition turns into
    the float [0.0]; with two locations or more the loop runs at least once. *)
Definition calculate_total_distance {bytes : Type} {D : Geodesic}
  (s : TravelData bytes) : option (number * list distance_line) :=
  if (List.length (data s) <? 2)%nat then Some (PyInt 0, [LineNotEnoughLocations])
  else
    let locations := keys (data s) in
    match fold_left (add_leg (data s) locations)
            (seq 0 (List.length locations - 1)) (Some 0%float) with
    | Some total_distance =>
        Some (PyFloat total_distance, [LineTotalDistance total_distance])
    | None => None
    end.

(** ** Further words for the properties of the store *)

(** The data file holds a snapshot that loads as the current sequence. *)
Definition snapshot_current {bytes : Type} {P : Pickler bytes}
  (s : TravelData bytes) : Prop :=
  exists b, file s = Some b /\ pickle_load b = Some (data s).

(** The sum of the totals of a per-country mapping *)
Definition sum_of_totals (country_days : odict Z) : Z :=
  fold_right Z.add 0 (values country_days).

(** The sum of the days of a sequence *)
Definition sum_of_days (d : odict details) : Z :=
  fold_right Z.add 0 (map details_3 (values d)).

(** A geodesic for the examples: the difference of the longitudes *)
Definition flat_geodesic : Geodesic :=
  {| geodesic_km := fun loc1 loc2 => (snd loc2 - snd loc1)%float |}.

(** * Properties of the ordered dictionary *)
Section OrderedDictFacts.
Context {V : Type}.
Implicit Types (d l : odict V) (k : string) (v : V).

Lemma contains_In k d : contains k d = true <-> In k (keys d).
Proof.
  induction d as [|[k' v'] r IH]; simpl.
  - split; [discriminate | tauto].
  - rewrite orb_true_iff, IH, String.eqb_eq. tauto.
Qed.

Lemma contains_false_In k d : contains k d = false <-> ~ In k (keys d).
Proof.
  rewrite <- contains_In. destruct (contains k d); split; congruence.
Qed.

Lemma keys_app l1 l2 : keys (l1 ++ l2) = keys l1 ++ keys l2.
Proof. apply map_app. Qed.

Lemma get_None_contains k d : get k d = None <-> contains k d = false.
Proof.
  induction d as [|[k' v'] r IH]; simpl; [tauto|].
  destruct (k' =? k)%string; simpl; [split; discriminate | exact IH].
Qed.

Lemma get_Some_contains k d v : get k d = Some v -> contains k d = true.
Proof.
  intros H. destruct (contains k d) eqn:E; [reflexivity|].
  apply get_None_contains in E. congruence.
Qed.

Lemma get_mid k v l1 l2 :
  ~ In k (keys l1) -> get k (l1 ++ (k, v) :: l2) = Some v.
Proof.
  induction l1 as [|[k' v'] r IH]; simpl; intros H.
  - now rewrite String.eqb_refl.
  - destruct (String.eqb_spec k' k) as [->|N]; [tauto|]. apply IH. tauto.
Qed.

Lemma get_split k v d :
  get k d = Some v ->
  exists l1 l2, d = l1 ++ (k, v) :: l2 /\ ~ In k (keys l1).
Proof.
  induction d as [|[k' v'] r IH]; simpl; [discriminate|].
  destruct (String.eqb_spec k' k) as [->|N]; intros H.
  - injection H as ->. exists [], r. simpl. tauto.
  - destruct (IH H) as (l1 & l2 & -> & Hn).
    exists ((k', v') :: l1), l2. simpl. split; [reflexivity | tauto].
Qed.

Lemma setitem_fresh k v d :
  ~ In k (keys d) -> setitem k v d = d ++ [(k, v)].
Proof.
  induction d as [|[k' v'] r IH]; simpl; intros H; [reflexivity|].
  destruct (String.eqb_spec k' k) as [->|N]; [tauto|].
  rewrite IH; tauto.
Qed.

Lemma setitem_mid k v v0 l1 l2 :
  ~ In k (keys l1) ->
  setitem k v (l1 ++ (k, v0) :: l2) = l1 ++ (k, v) :: l2.
Proof.
  induction l1 as [|[k' v'] r IH]; simpl; intros H.
  - now rewrite String.eqb_refl.
  - destruct (String.eqb_spec k' k) as [->|N]; [tauto|].
    rewrite IH; tauto.
Qed.

Lemma delitem_mid k v0 l1 l2 :
  ~ In k (keys l1) -> delitem k (l1 ++ (k, v0) :: l2) = l1 ++ l2.
Proof.
  induction l1 as [|[k' v'] r IH]; simpl; intros H.
  - now rewrite String.eqb_refl.
  - destruct (String.eqb_spec k' k) as [->|N]; [tauto|].
    rewrite IH; tauto.
Qed.

Lemma delitem_fresh k d : ~ In k (keys d) -> delitem k d = d.
Proof.
  induction d as [|[k' v'] r IH]; simpl; intros H; [reflexivity|].
  destruct (String.eqb_spec k' k) as [->|N]; [tauto|].
  rewrite IH; tauto.
Qed.

Lemma keys_setitem k v d :
  keys (setitem k v d) = if contains k d then keys d else keys d ++ [k].
Proof.
  induction d as [|[k' v'] r IH]; simpl; [reflexivity|].
  destruct (String.eqb_spec k' k) as [->|N]; simpl; [reflexivity|].
  rewrite IH. now destruct (contains k r).
Qed.

Lemma In_keys_setitem k k0 v d :
  In k0 (keys (setitem k v d)) <-> k0 = k \/ In k0 (keys d).
Proof.
  rewrite keys_setitem. destruct (contains k d) eqn:E.
  - apply contains_In in E. split; [tauto|]. intros [->|H]; assumption.
  - rewrite in_app_iff. simpl. intuition congruence.
Qed.

Lemma NoDup_keys_setitem k v d :
  NoDup (keys d) -> NoDup (keys (setitem k v d)).
Proof.
  intros H. rewrite keys_setitem. destruct (contains k d) eqn:E; [assumption|].
  apply contains_false_In in E.
  apply NoDup_app; [assumption | repeat constructor; simpl; tauto |].
  intros x Hx [<-|[]]. contradiction.
Qed.

Lemma get_setitem_same k v d : get k (setitem k v d) = Some v.
Proof.
  induction d as [|[k' v'] r IH]; simpl.
  - now rewrite String.eqb_refl.
  - destruct (String.eqb_spec k' k) as [->|N]; simpl.
    + now rewrite String.eqb_refl.
    + destruct (String.eqb_spec k' k); [contradiction | exact IH].
Qed.

Lemma get_setitem_other k k0 v d :
  k0 <> k -> get k0 (setitem k v d) = get k0 d.
Proof.
  intros N. induction d as [|[k' v'] r IH]; simpl.
  - destruct (String.eqb_spec k k0); [congruence | reflexivity].
  - destruct (String.eqb_spec k' k) as [->|N']; simpl.
    + destruct (String.eqb_spec k k0); [congruence | reflexivity].
    + now rewrite IH.
Qed.

Lemma get_delitem_other k k0 d :
  k0 <> k -> get k0 (delitem k d) = get k0 d.
Proof.
  intros N. induction d as [|[k' v'] r IH]; simpl; [reflexivity|].
  destruct (String.eqb_spec k' k) as [->|N']; simpl.
  - destruct (String.eqb_spec k k0); [congruence | reflexivity].
  - now rewrite IH.
Qed.

(** Updating with a dictionary whose keys are new appends its items. *)
Lemma update_app l o :
  NoDup (keys (l ++ o)) -> update l o = l ++ o.
Proof.
  revert l. induction o as [|[k v] r IH]; intros l H; simpl.
  - now rewrite app_nil_r.
  - unfold update in *. simpl.
    assert (Hk : ~ In k (keys l)).
    { rewrite keys_app in H. simpl in H. apply NoDup_remove_2 in H.
      rewrite in_app_iff in H. tauto. }
    rewrite setitem_fresh by assumption.
    rewrite IH; rewrite <- app_assoc; [reflexivity | exact H].
Qed.

Lemma update_split l1 l2 o :
  update l1 (l2 ++ o) = update (update l1 l2) o.
Proof. unfold update. apply fold_left_app. Qed.

Lemma NoDup_keys_update l o :
  NoDup (keys l) -> NoDup (keys (update l o)).
Proof.
  revert l. induction o as [|[k v] r IH]; intros l H; [exact H|].
  apply IH. now apply NoDup_keys_setitem.
Qed.

Lemma In_keys_update k l o :
  In k (keys (update l o)) <-> In k (keys l) \/ In k (keys o).
Proof.
  revert l. induction o as [|[k' v] r IH]; intros l; simpl; [tauto|].
  change (update l ((k', v) :: r)) with (update (setitem k' v l) r).
  rewrite IH, In_keys_setitem. intuition congruence.
Qed.

End OrderedDictFacts.

(** * The loop that places a waypoint after another *)
Section PlaceAfter.
Implicit Types (d l upd : odict details) (k name : string) (e v : details).

Lemma contains_opt_false_iff (after_place : option string) d :
  contains_opt after_place d = false <->
  forall a, after_place = Some a -> ~ In a (keys d).
Proof.
  destruct after_place as [a|]; simpl.
  - rewrite contains_false_In. split.
    + intros H b [= <-]. exact H.
    + intros H. now apply H.
  - split; [discriminate | reflexivity].
Qed.

(** Where the key [after_place] does not occur the loop only copies. *)
Lemma place_after_absent name e after_place d upd :
  contains_opt after_place d = false ->
  place_after name e after_place d upd = update upd d.
Proof.
  revert upd. induction d as [|[k v] r IH]; intros upd H; [reflexivity|].
  unfold place_after, update in *. simpl.
  rewrite contains_opt_false_iff in H.
  assert (Hk : key_is k after_place = false).
  { destruct after_place as [a|]; simpl; [|reflexivity].
    apply String.eqb_neq. intros ->. apply (H a eq_refl). simpl. tauto. }
  rewrite Hk. apply IH. apply contains_opt_false_iff.
  intros a Ha Hin. apply (H a Ha). simpl. tauto.
Qed.

Lemma place_after_split name e a v l1 l2 upd :
  ~ In a (keys l1) ->
  place_after name e (Some a) (l1 ++ (a, v) :: l2) upd =
  place_after name e (Some a) l2 (setitem name e (setitem a v (update upd l1))).
Proof.
  intros H. unfold place_after at 1. rewrite fold_left_app. simpl.
  rewrite String.eqb_refl.
  change (fold_left _ l1 upd) with (place_after name e (Some a) l1 upd).
  rewrite place_after_absent by (simpl; now apply contains_false_In).
  reflexivity.
Qed.

(** A name that is new to a store lands right after [a]. *)
Lemma place_after_fresh name e a v l1 l2 :
  unique_names (l1 ++ (a, v) :: l2) ->
  ~ In name (keys (l1 ++ (a, v) :: l2)) ->
  place_after name e (Some a) (l1 ++ (a, v) :: l2) [] =
  l1 ++ (a, v) :: (name, e) :: l2.
Proof.
  unfold unique_names. intros Hd Hn.
  rewrite keys_app in Hd, Hn. simpl in Hd, Hn.
  assert (Ha1 : ~ In a (keys l1) /\ ~ In a (keys l2)).
  { apply NoDup_remove_2 in Hd. rewrite in_app_iff in Hd. tauto. }
  rewrite in_app_iff in Hn. simpl in Hn.
  rewrite place_after_split by tauto.
  rewrite (update_app [] l1) by (simpl; eapply NoDup_app_remove_r; exact Hd).
  simpl. rewrite (setitem_fresh a v l1) by tauto.
  rewrite (setitem_fresh name e).
  2:{ rewrite keys_app, in_app_iff. simpl. intuition congruence. }
  rewrite place_after_absent by (simpl; apply contains_false_In; tauto).
  rewrite update_app.
  - now rewrite <- !app_assoc.
  - rewrite <- !app_assoc. simpl. rewrite keys_app. simpl.
    replace (keys l1 ++ a :: name :: keys l2)
      with ((keys l1 ++ [a]) ++ name :: keys l2)
      by (rewrite <- app_assoc; reflexivity).
    apply (Permutation_NoDup (l := name :: (keys l1 ++ [a]) ++ keys l2)).
    + apply Permutation_middle.
    + rewrite <- app_assoc. simpl. constructor; [|exact Hd].
      rewrite in_app_iff. simpl. intuition congruence.
Qed.

Lemma NoDup_keys_place_after name e after_place d upd :
  NoDup (keys upd) -> NoDup (keys (place_after name e after_place d upd)).
Proof.
  revert upd. induction d as [|[k v] r IH]; intros upd H; [exact H|].
  unfold place_after in *. simpl. apply IH.
  destruct (key_is k after_place); repeat apply NoDup_keys_setitem; exact H.
Qed.

Lemma In_keys_place_after k name e after_place d upd :
  In k (keys (place_after name e after_place d upd)) <->
  In k (keys upd) \/ In k (keys d) \/
  (k = name /\ contains_opt after_place d = true).
Proof.
  revert upd. induction d as [|[k' v] r IH]; intros upd.
  - simpl. destruct after_place; simpl; intuition congruence.
  - change (place_after name e after_place ((k', v) :: r) upd)
      with (place_after name e after_place r
              (let u := setitem k' v upd in
               if key_is k' after_place then setitem name e u else u)).
    rewrite IH. simpl.
    destruct after_place as [a|]; simpl.
    + destruct (String.eqb_spec k' a) as [->|N]; simpl;
        rewrite ?In_keys_setitem; intuition congruence.
    + rewrite In_keys_setitem. intuition congruence.
Qed.

End PlaceAfter.

(** * The store: what the calls leave behind *)
Section StoreFacts.
Context {bytes : Type} {P : Pickler bytes} {G : Geolocator}.
Implicit Types (s : TravelData bytes) (d : odict details).

Lemma data_print m s : data (print m s) = data s.
Proof. reflexivity. Qed.

Lemma data_save_data s : data (save_data s) = data s.
Proof. unfold save_data. now destruct (writable s). Qed.

Lemma data_set_data d s : data (set_data d s) = d.
Proof. reflexivity. Qed.

(** With coordinates found, [add_location] is its three-way placement
    followed by the report and the save. *)
Lemma add_location_found name country days transport position after_place s lat lon :
  geocode (name ++ ", " ++ country)%string = Found lat lon ->
  add_location name country days transport position after_place s =
  let new_entry := Tuple5 country lat lon days transport in
  save_data
    (print (MsgAdded name days transport lat lon)
       (if (position =? "start")%string then
          set_data (update (setitem name new_entry []) (data s)) s
        else if (position =? "after")%string && contains_opt after_place (data s) then
          set_data (place_after name new_entry after_place (data s) []) s
        else set_data (setitem name new_entry (data s)) s)).
Proof.
  intros H. unfold add_location, get_lat_lon. now rewrite H.
Qed.

(** Moving a waypoint that is there: the waypoint is taken out and put back
    by the three-way placement. *)
Lemma move_location_present name new_position after_place s v l1 l2 :
  data s = l1 ++ (name, v) :: l2 ->
  ~ In name (keys l1) ->
  move_location name new_position after_place s =
  save_data
    (print (MsgMoved name new_position)
       (set_data
          (if (new_position =? "start")%string then
             update (setitem name v []) (l1 ++ l2)
           else if (new_position =? "after")%string
                   && contains_opt after_place (l1 ++ l2) then
             place_after name v after_place (l1 ++ l2) []
           else setitem name v (l1 ++ l2)) s)).
Proof.
  intros Hd Hn. unfold move_location, pop. rewrite Hd.
  assert (Hc : contains name (l1 ++ (name, v) :: l2) = true).
  { apply contains_In. rewrite keys_app, in_app_iff. simpl. tauto. }
  rewrite Hc, get_mid, delitem_mid by assumption. reflexivity.
Qed.

End StoreFacts.

Lemma unique_names_split {V : Type} (l1 l2 : odict V) k v :
  unique_names (l1 ++ (k, v) :: l2) ->
  unique_names (l1 ++ l2) /\ ~ In k (keys l1) /\ ~ In k (keys l2).
Proof.
  unfold unique_names. rewrite !keys_app. simpl. intros H.
  split; [now apply NoDup_remove_1 in H|].
  apply NoDup_remove_2 in H. rewrite in_app_iff in H. tauto.
Qed.

Lemma unique_names_cons {V : Type} (d : odict V) k v :
  unique_names d -> ~ In k (keys d) -> unique_names ((k, v) :: d).
Proof. unfold unique_names. simpl. now constructor. Qed.

(** The first item of a dictionary built by [update] from a one-item
    dictionary keeps its place and takes the last value assigned to its key. *)
Lemma update_singleton_fresh (name : string) (e : details) (d : odict details) :
  unique_names d -> ~ In name (keys d) ->
  update (setitem name e []) d = (name, e) :: d.
Proof.
  intros Hd Hn. simpl. apply (update_app [(name, e)] d).
  simpl. now constructor.
Qed.

Lemma update_singleton_present (name : string) (e old : details)
  (l1 l2 : odict details) :
  unique_names (l1 ++ (name, old) :: l2) ->
  update (setitem name e []) (l1 ++ (name, old) :: l2) = (name, old) :: l1 ++ l2.
Proof.
  intros H. destruct (unique_names_split _ _ _ _ H) as (Hd & H1 & H2).
  simpl. rewrite update_split.
  rewrite (update_app [(name, e)] l1).
  2:{ simpl. constructor; [exact H1|]. unfold unique_names in Hd.
      rewrite keys_app in Hd. now apply NoDup_app_remove_r in Hd. }
  change (update ([(name, e)] ++ l1) ((name, old) :: l2))
    with (update (setitem name old ((name, e) :: l1)) l2).
  simpl. rewrite String.eqb_refl.
  apply (update_app ((name, old) :: l1) l2).
  simpl. constructor; [|exact Hd].
  change (~ In name (keys (l1 ++ l2))). rewrite keys_app, in_app_iff. tauto.
Qed.

(** C4: for a store with unique names, a name that is new to it and a
    successful coordinate resolution, [add_location] with position ["start"]
    puts the new waypoint first with all existing waypoints after it; with
    position ["end"] it appends; with position ["after"] it puts the waypoint
    right after the waypoint named [after_place], and where [after_place] is
    not in the sequence it appends. *)
Theorem add_location_fresh_placement
  {bytes : Type} {P : Pickler bytes} {G : Geolocator}
  (name country : string) (days : Z) (transport : string) (lat lon : float)
  (s : TravelData bytes) :
  unique_names (data s) ->
  ~ In name (keys (data s)) ->
  geocode (name ++ ", " ++ country)%string = Found lat lon ->
  let e := Tuple5 country lat lon days transport in
  (forall after_place,
     data (add_location name country days transport "start" after_place s)
     = (name, e) :: data s) /\
  (forall after_place,
     data (add_location name country days transport "end" after_place s)
     = data s ++ [(name, e)]) /\
  (forall a v l1 l2, data s = l1 ++ (a, v) :: l2 ->
     data (add_location name country days transport "after" (Some a) s)
     = l1 ++ (a, v) :: (name, e) :: l2) /\
  (forall after_place, contains_opt after_place (data s) = false ->
     data (add_location name country days transport "after" after_place s)
     = data s ++ [(name, e)]).
Proof.
  intros Hd Hn Hg e. repeat split.
  - intros ap. rewrite (add_location_found _ _ _ _ _ _ _ _ _ Hg).
    simpl. rewrite data_save_data. simpl.
    now apply (update_singleton_fresh name e (data s)).
  - intros ap. rewrite (add_location_found _ _ _ _ _ _ _ _ _ Hg).
    simpl. rewrite data_save_data. simpl. now apply setitem_fresh.
  - intros a v l1 l2 E. rewrite (add_location_found _ _ _ _ _ _ _ _ _ Hg).
    assert (Hc : contains_opt (Some a) (data s) = true).
    { simpl. apply contains_In. rewrite E, keys_app, in_app_iff. simpl. tauto. }
    cbn zeta. change ("after" =? "start")%string with false.
    change ("after" =? "after")%string with true. rewrite Hc.
    cbn [andb]. rewrite data_save_data. cbn [print data set_data].
    rewrite E in *. now apply place_after_fresh.
  - intros ap Hc. rewrite (add_location_found _ _ _ _ _ _ _ _ _ Hg).
    cbn zeta. change ("after" =? "start")%string with false.
    rewrite Hc, andb_false_r, data_save_data. cbn [print data set_data].
    now apply setitem_fresh.
Qed.

Lemma add_location_fresh_placement_witness :
  data (add_location (P := plain_pickler) (G := atlas)
          "Hanoi" "Vietnam" 3 "Bus" "after" (Some "Bangkok") (store_of route))
  = [("Oslo", oslo); ("Bangkok", bangkok);
     ("Hanoi", Tuple5 "Vietnam" 59.5 10.75 3 "Bus"); ("Krabi", krabi)].
Proof.
  refine (proj1 (proj2 (proj2
    (add_location_fresh_placement (P := plain_pickler) (G := atlas)
       "Hanoi" "Vietnam" 3 "Bus" 59.5 10.75 (store_of route) _ _ _)))
    "Bangkok" bangkok [("Oslo", oslo)] [("Krabi", krabi)] eq_refl).
  - repeat constructor; simpl; intuition discriminate.
  - simpl; intuition discriminate.
  - reflexivity.
Defined.

Lemma contains_get {V : Type} (k : string) (d : odict V) :
  contains k d = true -> exists v, get k d = Some v.
Proof.
  intros H. destruct (get k d) as [v|] eqn:E; [now exists v|].
  apply get_None_contains in E. congruence.
Qed.

(** Where a waypoint that was taken out of the sequence is put back. *)
Lemma replacement_cases (name new_position : string) (after_place : option string)
  (v : details) (rest : odict details) :
  unique_names rest -> ~ In name (keys rest) ->
  let updated_data :=
    if (new_position =? "start")%string then update (setitem name v []) rest
    else if (new_position =? "after")%string && contains_opt after_place rest then
      place_after name v after_place rest []
    else setitem name v rest in
  (new_position = "start" /\ updated_data = (name, v) :: rest) \/
  (new_position = "after" /\
   exists a w m1 m2, after_place = Some a /\ rest = m1 ++ (a, w) :: m2 /\
     updated_data = m1 ++ (a, w) :: (name, v) :: m2) \/
  (new_position <> "start" /\
   (new_position <> "after" \/ contains_opt after_place rest = false) /\
   updated_data = rest ++ [(name, v)]).
Proof.
  intros Hd Hn. cbn zeta.
  destruct (String.eqb_spec new_position "start") as [->|Ns].
  { left. split; [reflexivity|]. now apply update_singleton_fresh. }
  right.
  destruct (String.eqb_spec new_position "after") as [->|Na]; cbn [andb].
  - destruct (contains_opt after_place rest) eqn:Hc.
    + left. split; [reflexivity|].
      destruct after_place as [a|]; [|discriminate]. simpl in Hc.
      destruct (contains_get _ _ Hc) as [w Hw].
      destruct (get_split _ _ _ Hw) as (m1 & m2 & -> & _).
      exists a, w, m1, m2. repeat split. now apply place_after_fresh.
    + right. repeat split; [assumption | now right | now apply setitem_fresh].
  - right. repeat split; [assumption | now left | now apply setitem_fresh].
Qed.

(** C5: [move_location] of a name that is absent reports it and leaves the
    store as it was.  Of a name that is present it takes the waypoint out and
    puts it back with the placement of [add_location]: the names stay unique
    and the waypoints are the same ones; ["start"] puts the waypoint first,
    ["end"] last, ["after"] right after [after_place], and ["after"] with an
    [after_place] that is not among the other waypoints puts it last. *)
Theorem move_location_spec {bytes : Type} {P : Pickler bytes}
  (name new_position : string) (after_place : option string)
  (s : TravelData bytes) :
  unique_names (data s) ->
  (~ In name (keys (data s)) ->
   move_location name new_position after_place s
   = print (MsgNotInTravelList name) s) /\
  (forall v l1 l2, data s = l1 ++ (name, v) :: l2 ->
     let rest := l1 ++ l2 in
     let s' := move_location name new_position after_place s in
     unique_names (data s') /\
     Permutation (data s') (data s) /\
     (new_position = "start" -> data s' = (name, v) :: rest) /\
     (new_position = "end" -> data s' = rest ++ [(name, v)]) /\
     (new_position = "after" ->
      forall a w m1 m2, after_place = Some a -> rest = m1 ++ (a, w) :: m2 ->
        data s' = m1 ++ (a, w) :: (name, v) :: m2) /\
     (new_position = "after" -> contains_opt after_place rest = false ->
      data s' = rest ++ [(name, v)])).
Proof.
  intros Hd. split.
  - intros Hn. unfold move_location.
    apply contains_false_In in Hn. now rewrite Hn.
  - intros v l1 l2 E rest s'. rewrite E in Hd.
    destruct (unique_names_split _ _ _ _ Hd) as (Hr & H1 & H2).
    assert (Hn : ~ In name (keys rest)).
    { unfold rest. rewrite keys_app, in_app_iff. tauto. }
    assert (Es : data s' =
      if (new_position =? "start")%string then update (setitem name v []) rest
      else if (new_position =? "after")%string && contains_opt after_place rest then
        place_after name v after_place rest []
      else setitem name v rest).
    { unfold s'. rewrite (move_location_present _ _ _ _ _ _ _ E H1).
      now rewrite data_save_data. }
    pose proof (replacement_cases name new_position after_place v rest Hr Hn) as C.
    cbn zeta in C. rewrite <- Es in C.
    assert (Hp : Permutation (data s') (data s)).
    { rewrite E. destruct C as [[_ ->]|[(_ & a & w & m1 & m2 & _ & Er & ->)|(_ & _ & ->)]].
      - apply Permutation_middle.
      - apply Permutation_trans with ((name, v) :: rest); [|apply Permutation_middle].
        rewrite Er. symmetry.
        replace (m1 ++ (a, w) :: (name, v) :: m2)
          with ((m1 ++ [(a, w)]) ++ (name, v) :: m2)
          by (now rewrite <- app_assoc).
        replace (m1 ++ (a, w) :: m2) with ((m1 ++ [(a, w)]) ++ m2)
          by (now rewrite <- app_assoc).
        apply Permutation_middle.
      - apply Permutation_trans with ((name, v) :: rest); [|apply Permutation_middle].
        symmetry. apply Permutation_cons_append. }
    split; [|split; [exact Hp|]].
    { unfold unique_names. apply (Permutation_NoDup (l := keys (data s))).
      - symmetry. now apply Permutation_map.
      - now rewrite E. }
    repeat split.
    + intros ->. destruct C as [[_ ?]|[(? & _)|(? & _)]]; congruence.
    + intros ->. destruct C as [[? _]|[(? & _)|(_ & _ & ?)]]; congruence.
    + intros -> a w m1 m2 -> Er.
      rewrite Es. change ("after" =? "start")%string with false.
      assert (Hc : contains_opt (Some a) rest = true).
      { simpl. apply contains_In. rewrite Er, keys_app, in_app_iff. simpl. tauto. }
      rewrite Hc. change ("after" =? "after")%string with true. cbn [andb].
      change (unique_names rest) in Hr.
      rewrite Er. apply place_after_fresh; rewrite <- Er; assumption.
    + intros -> Hc. rewrite Es, Hc. change ("after" =? "start")%string with false.
      rewrite andb_false_r. now apply setitem_fresh.
Qed.

Lemma move_location_spec_witness :
  data (move_location (P := plain_pickler) "Krabi" "start" None (store_of route))
  = [("Krabi", krabi); ("Oslo", oslo); ("Bangkok", bangkok)].
Proof.
  refine (proj1 (proj2 (proj2 (proj2
    (move_location_spec (P := plain_pickler) "Krabi" "start" None (store_of route) _)
    krabi [("Oslo", oslo); ("Bangkok", bangkok)] [] eq_refl))) eq_refl).
  repeat constructor; simpl; intuition discriminate.
Defined.

(** C6: when the coordinate resolution of [add_location] gives no result or
    times out, the waypoints are left as they were, the data file is not
    written, and the caller is told: the resolver's line and the skipping
    line are all that is printed. *)
Theorem add_location_resolution_failure
  {bytes : Type} {P : Pickler bytes} {G : Geolocator}
  (name country : string) (days : Z) (transport position : string)
  (after_place : option string) (s : TravelData bytes) :
  let location := (name ++ ", " ++ country)%string in
  geocode location = NotFound \/ geocode location = TimedOut ->
  let s' := add_location name country days transport position after_place s in
  data s' = data s /\
  file s' = file s /\
  writable s' = writable s /\
  exists report,
    (report = MsgNoCoordinates location \/ report = MsgGeocodeTimedOut) /\
    stdout s' = stdout s ++ [report; MsgSkipping name].
Proof.
  intros location H s'. unfold s', add_location, get_lat_lon.
  fold location. destruct H as [-> | ->]; cbn.
  - repeat split. exists (MsgNoCoordinates location).
    split; [now left|]. now rewrite <- app_assoc.
  - repeat split. exists MsgGeocodeTimedOut.
    split; [now right|]. now rewrite <- app_assoc.
Qed.

Lemma add_location_resolution_failure_witness :
  data (add_location (P := plain_pickler) (G := atlas)
          "Atlantis" "Nowhere" 2 "Boat" "start" None (store_of route))
  = route.
Proof.
  refine (proj1 (add_location_resolution_failure (P := plain_pickler) (G := atlas)
    "Atlantis" "Nowhere" 2 "Boat" "start" None (store_of route) _)).
  left. reflexivity.
Defined.

(** C9: [add_location] with position ["start"] and a name that the store
    already has leaves that name at the front of the sequence with the old
    details; the country, coordinates, days and transport just supplied are
    dropped, because updating with the existing data assigns the old value to
    the key. *)
Theorem add_location_start_existing
  {bytes : Type} {P : Pickler bytes} {G : Geolocator}
  (name country : string) (days : Z) (transport : string) (lat lon : float)
  (after_place : option string) (old : details) (l1 l2 : odict details)
  (s : TravelData bytes) :
  unique_names (data s) ->
  data s = l1 ++ (name, old) :: l2 ->
  geocode (name ++ ", " ++ country)%string = Found lat lon ->
  data (add_location name country days transport "start" after_place s)
  = (name, old) :: l1 ++ l2.
Proof.
  intros Hd E Hg. rewrite (add_location_found _ _ _ _ _ _ _ _ _ Hg).
  cbn zeta. change ("start" =? "start")%string with true. cbv iota.
  rewrite data_save_data. cbn [print data set_data].
  rewrite E in *. now apply update_singleton_present.
Qed.

Lemma add_location_start_existing_witness :
  data (add_location (P := plain_pickler) (G := atlas)
          "Bangkok" "Siam" 9 "Tuk-tuk" "start" None (store_of route))
  = [("Bangkok", bangkok); ("Oslo", oslo); ("Krabi", krabi)].
Proof.
  refine (add_location_start_existing (P := plain_pickler) (G := atlas)
    "Bangkok" "Siam" 9 "Tuk-tuk" 59.5 10.75 None bangkok
    [("Oslo", oslo)] [("Krabi", krabi)] (store_of route) _ eq_refl eq_refl).
  repeat constructor; simpl; intuition discriminate.
Defined.

(** C10: [add_location] takes every position other than the exact strings
    ["start"] and ["after"], and ["after"] with an [after_place] that is
    [None] or not in the store, as ["end"]: the call does what the call with
    ["end"] does, and a waypoint with a new name is appended. *)
Theorem add_location_position_fallthrough
  {bytes : Type} {P : Pickler bytes} {G : Geolocator}
  (name country : string) (days : Z) (transport position : string)
  (after_place : option string) (s : TravelData bytes) :
  position <> "start" ->
  position <> "after" \/ contains_opt after_place (data s) = false ->
  add_location name country days transport position after_place s
  = add_location name country days transport "end" None s /\
  (forall lat lon,
     geocode (name ++ ", " ++ country)%string = Found lat lon ->
     ~ In name (keys (data s)) ->
     data (add_location name country days transport position after_place s)
     = data s ++ [(name, Tuple5 country lat lon days transport)]).
Proof.
  intros Hs Ha.
  assert (Hb : (position =? "after")%string && contains_opt after_place (data s)
               = false).
  { destruct Ha as [Ha | ->]; [|apply andb_false_r].
    apply String.eqb_neq in Ha. now rewrite Ha. }
  apply String.eqb_neq in Hs.
  assert (E : add_location name country days transport position after_place s
              = add_location name country days transport "end" None s).
  { unfold add_location, get_lat_lon.
    destruct (geocode (name ++ ", " ++ country)%string); [|reflexivity..].
    now rewrite Hs, Hb. }
  split; [exact E|].
  intros lat lon Hg Hn. rewrite (add_location_found _ _ _ _ _ _ _ _ _ Hg).
  cbn zeta. rewrite Hs, Hb, data_save_data. cbn [print data set_data].
  now apply setitem_fresh.
Qed.

Lemma add_location_position_fallthrough_witness :
  add_location (P := plain_pickler) (G := atlas)
    "Hanoi" "Vietnam" 3 "Bus" "Start" None (store_of route)
  = add_location (P := plain_pickler) (G := atlas)
      "Hanoi" "Vietnam" 3 "Bus" "end" None (store_of route).
Proof.
  refine (proj1 (add_location_position_fallthrough (P := plain_pickler) (G := atlas)
    "Hanoi" "Vietnam" 3 "Bus" "Start" None (store_of route) _ _)).
  - discriminate.
  - left. discriminate.
Defined.

(** ** Changing the days of a waypoint *)

Lemma change_days_five_tuple {bytes : Type} {P : Pickler bytes}
  (name : string) (new_days : Z) (s : TravelData bytes)
  country lat lon days transport :
  get name (data s) = Some (Tuple5 country lat lon days transport) ->
  change_days name new_days s = Raised ValueError s.
Proof.
  intros H. unfold change_days.
  now rewrite (get_Some_contains _ _ _ H), H.
Qed.

(** The sibling [change_transport] unpacks five names and keeps the other
    four fields of a five-tuple. *)
Lemma change_transport_five_tuple {bytes : Type} {P : Pickler bytes}
  (name new_transport : string) (s : TravelData bytes)
  country lat lon days transport :
  get name (data s) = Some (Tuple5 country lat lon days transport) ->
  exists s',
    change_transport name new_transport s = Returned tt s' /\
    data s' = setitem name (Tuple5 country lat lon days new_transport) (data s).
Proof.
  intros H. unfold change_transport.
  rewrite (get_Some_contains _ _ _ H), H.
  eexists. split; [reflexivity|]. now rewrite data_save_data.
Qed.

(** C1: on a waypoint stored by [add_location], a five-tuple, [change_days]
    does not update the days: unpacking the tuple into four names raises
    [ValueError], and the store is left as it was. *)
Theorem change_days_raises_on_added_waypoint :
  let s := add_location (P := plain_pickler) (G := atlas)
             "Oslo" "Norway" 4 "Plane" "end" None
             (init (P := plain_pickler) None true) in
  get "Oslo" (data s) = Some oslo /\
  change_days (P := plain_pickler) "Oslo" 7 s = Raised ValueError s.
Proof. split; reflexivity. Qed.

(** ** Renaming a waypoint *)

(** C2, as stated, fails: renaming the first waypoint of a route of three to
    a new name moves it to the last position. *)
Lemma change_location_name_moves_to_end :
  let s' := change_location_name (P := plain_pickler)
              "Oslo" "Stockholm" (store_of route) in
  index_of "Oslo" route = Some 0%nat /\
  index_of "Stockholm" (data s') = Some 2%nat /\
  data s' = [("Bangkok", bangkok); ("Krabi", krabi); ("Stockholm", oslo)].
Proof. repeat split. Qed.

(** C2, amended: for a store with unique names that has [old_name],
    [change_location_name] keeps the details of the waypoint under the new
    name and keeps the names unique, but not the position: where [new_name]
    is not the name of another waypoint the renamed waypoint goes to the end
    of the sequence, and where it is, the renamed waypoint takes the place and
    overwrites the details of that other waypoint. *)
Theorem change_location_name_spec {bytes : Type} {P : Pickler bytes}
  (old_name new_name : string) (v : details) (l1 l2 : odict details)
  (s : TravelData bytes) :
  unique_names (data s) ->
  data s = l1 ++ (old_name, v) :: l2 ->
  let s' := change_location_name old_name new_name s in
  get new_name (data s') = Some v /\
  unique_names (data s') /\
  (~ In new_name (keys (l1 ++ l2)) -> data s' = l1 ++ l2 ++ [(new_name, v)]) /\
  (forall w m1 m2, l1 ++ l2 = m1 ++ (new_name, w) :: m2 ->
     data s' = m1 ++ (new_name, v) :: m2).
Proof.
  intros Hd E s'. rewrite E in Hd.
  destruct (unique_names_split _ _ _ _ Hd) as (Hr & H1 & H2).
  assert (Es : data s' = setitem new_name v (l1 ++ l2)).
  { unfold s', change_location_name, pop. rewrite E.
    assert (Hc : contains old_name (l1 ++ (old_name, v) :: l2) = true).
    { apply contains_In. rewrite keys_app, in_app_iff. simpl. tauto. }
    rewrite Hc, get_mid, delitem_mid by assumption.
    now rewrite data_save_data. }
  rewrite Es. repeat split.
  - apply get_setitem_same.
  - now apply NoDup_keys_setitem.
  - intros Hn. rewrite setitem_fresh by assumption. now rewrite app_assoc.
  - intros w m1 m2 Em. rewrite Em in *. apply setitem_mid.
    now destruct (unique_names_split _ _ _ _ Hr).
Qed.

Lemma change_location_name_spec_witness :
  data (change_location_name (P := plain_pickler)
          "Oslo" "Krabi" (store_of route))
  = [("Bangkok", bangkok); ("Krabi", oslo)].
Proof.
  refine (proj2 (proj2 (proj2
    (change_location_name_spec (P := plain_pickler) "Oslo" "Krabi" oslo []
       [("Bangkok", bangkok); ("Krabi", krabi)] (store_of route) _ eq_refl)))
    krabi [("Bangkok", bangkok)] [] eq_refl).
  repeat constructor; simpl; intuition discriminate.
Defined.

(** ** Adding a name that the store already has *)

(** C3, as stated, fails: adding ["Oslo"] to a route that has ["Oslo"] leaves
    one waypoint of that name, with the new details in the old place. *)
Lemma add_location_existing_name_collapses :
  let s' := add_location (P := plain_pickler) (G := atlas)
              "Oslo" "Sweden" 1 "Ferry" "end" None (store_of route) in
  count_occ string_dec (keys (data s')) "Oslo" = 1%nat /\
  count_occ string_dec (keys (data s')) "Oslo" <> 2%nat /\
  data s' = [("Oslo", Tuple5 "Sweden" 59.5 10.75 1 "Ferry");
             ("Bangkok", bangkok); ("Krabi", krabi)].
Proof. repeat split. discriminate. Qed.

(** C3, amended: for a store with unique names that already has a waypoint
    named [name], [add_location] of a waypoint of that name with a successful
    coordinate resolution makes no second entry, whatever the position: the
    names stay unique and the same, one waypoint is named [name], and the
    number of waypoints does not change. *)
Theorem add_location_existing_name
  {bytes : Type} {P : Pickler bytes} {G : Geolocator}
  (name country : string) (days : Z) (transport position : string)
  (after_place : option string) (lat lon : float) (s : TravelData bytes) :
  unique_names (data s) ->
  In name (keys (data s)) ->
  geocode (name ++ ", " ++ country)%string = Found lat lon ->
  let s' := add_location name country days transport position after_place s in
  unique_names (data s') /\
  Permutation (keys (data s')) (keys (data s)) /\
  count_occ string_dec (keys (data s')) name = 1%nat /\
  List.length (data s') = List.length (data s).
Proof.
  intros Hd Hin Hg s'. unfold s'.
  rewrite (add_location_found _ _ _ _ _ _ _ _ _ Hg). cbn zeta.
  rewrite data_save_data. cbn [print data].
  set (e := Tuple5 country lat lon days transport).
  set (d' := data _).
  assert (Hn : NoDup (keys d')).
  { unfold d'. destruct (position =? "start")%string; cbn [data set_data].
    - apply NoDup_keys_update. simpl. repeat constructor. simpl. tauto.
    - destruct ((position =? "after")%string && _); cbn [data set_data].
      + apply NoDup_keys_place_after. constructor.
      + now apply NoDup_keys_setitem. }
  assert (Hk : forall k, In k (keys d') <-> In k (keys (data s))).
  { intros k. unfold d'. destruct (position =? "start")%string; cbn [data set_data].
    - rewrite In_keys_update. simpl. intuition congruence.
    - destruct ((position =? "after")%string && _); cbn [data set_data].
      + rewrite In_keys_place_after. simpl. intuition congruence.
      + rewrite In_keys_setitem. intuition congruence. }
  assert (Hp : Permutation (keys d') (keys (data s))).
  { apply NoDup_Permutation; assumption. }
  repeat split; try assumption.
  - apply NoDup_count_occ'; [assumption | now apply Hk].
  - apply Permutation_length in Hp. unfold keys in Hp.
    now rewrite !length_map in Hp.
Qed.

Lemma add_location_existing_name_witness :
  List.length (data (add_location (P := plain_pickler) (G := atlas)
                  "Krabi" "Siam" 9 "Boat" "after" (Some "Oslo") (store_of route)))
  = 3%nat.
Proof.
  refine (proj2 (proj2 (proj2
    (add_location_existing_name (P := plain_pickler) (G := atlas)
       "Krabi" "Siam" 9 "Boat" "after" (Some "Oslo") 59.5 10.75
       (store_of route) _ _ eq_refl)))).
  - repeat constructor; simpl; intuition discriminate.
  - simpl. tauto.
Defined.

(** * Sorting: [sorted] is a stable sort *)
Section SortedFacts.
Context {A : Type} (key : A -> Z).

Lemma insert_by_perm x l : Permutation (insert_by key x l) (x :: l).
Proof.
  induction l as [|y r IH]; simpl; [reflexivity|].
  destruct (key x <=? key y); [reflexivity|].
  rewrite IH. apply perm_swap.
Qed.

Lemma sorted_perm l : Permutation (sorted key l) l.
Proof.
  induction l as [|x r IH]; simpl; [constructor|].
  rewrite insert_by_perm. now constructor.
Qed.

Lemma insert_by_sorted x l :
  StronglySorted (le_key key) l -> StronglySorted (le_key key) (insert_by key x l).
Proof.
  induction 1 as [|y r Hs IH Hf]; simpl.
  - repeat constructor.
  - destruct (Z.leb_spec (key x) (key y)) as [Hle|Hgt].
    + constructor; [now constructor|].
      constructor; [exact Hle|].
      eapply Forall_impl; [|exact Hf]. unfold le_key. intros; lia.
    + constructor; [exact IH|].
      rewrite insert_by_perm.
      constructor; [unfold le_key; lia | exact Hf].
Qed.

Lemma sorted_sorted l : StronglySorted (le_key key) (sorted key l).
Proof.
  induction l as [|x r IH]; simpl; [constructor|].
  now apply insert_by_sorted.
Qed.

(** An element is put in front of the first element whose key is not
    smaller, so it passes no element with its own key. *)
Lemma insert_by_filter n x l :
  filter (fun a => key a =? n) (insert_by key x l)
  = filter (fun a => key a =? n) (x :: l).
Proof.
  induction l as [|y r IH]; [reflexivity|].
  cbn [insert_by]. destruct (Z.leb_spec (key x) (key y)) as [Hle|Hgt];
    [reflexivity|].
  cbn [filter] in *. rewrite IH.
  destruct (Z.eqb_spec (key x) n), (Z.eqb_spec (key y) n);
    try reflexivity; lia.
Qed.

Lemma sorted_stable n l :
  filter (fun a => key a =? n) (sorted key l) = filter (fun a => key a =? n) l.
Proof.
  induction l as [|x r IH]; [reflexivity|].
  cbn [sorted fold_right]. rewrite insert_by_filter.
  cbn [filter]. fold (sorted key r). now rewrite IH.
Qed.

End SortedFacts.

(** * The per-country totals *)

Lemma filter_filter {A : Type} (p q : A -> bool) (l : list A) :
  filter p (filter q l) = filter (fun x => q x && p x) l.
Proof.
  induction l as [|x r IH]; [reflexivity|]. simpl.
  destruct (q x); simpl; [destruct (p x)|]; now rewrite IH.
Qed.

Lemma keys_iadd c n (cd : odict Z) :
  keys (iadd c n cd) = if contains c cd then keys cd else keys cd ++ [c].
Proof.
  unfold iadd, defaultdict_getitem.
  destruct (get c cd) as [v|] eqn:E.
  - rewrite keys_setitem. now rewrite (get_Some_contains _ _ _ E).
  - apply get_None_contains in E.
    assert (H : contains c (setitem c 0 cd) = true).
    { apply contains_In, In_keys_setitem. now left. }
    cbn [fst snd]. rewrite keys_setitem, H, keys_setitem. reflexivity.
Qed.

Lemma NoDup_keys_iadd c n (cd : odict Z) :
  NoDup (keys cd) -> NoDup (keys (iadd c n cd)).
Proof.
  intros H. unfold iadd, defaultdict_getitem.
  destruct (get c cd); repeat apply NoDup_keys_setitem; exact H.
Qed.

Lemma value_iadd c0 c n (cd : odict Z) :
  fst (defaultdict_getitem c (iadd c0 n cd))
  = if (c0 =? c)%string then fst (defaultdict_getitem c cd) + n
    else fst (defaultdict_getitem c cd).
Proof.
  unfold iadd. destruct (defaultdict_getitem c0 cd) as [v d'] eqn:E.
  unfold defaultdict_getitem in *.
  destruct (String.eqb_spec c0 c) as [->|N].
  - rewrite get_setitem_same. simpl.
    destruct (get c cd); injection E as <- <-; reflexivity.
  - rewrite get_setitem_other by congruence.
    destruct (get c0 cd); injection E as <- <-.
    + destruct (get c cd); reflexivity.
    + rewrite get_setitem_other by congruence.
      destruct (get c cd); reflexivity.
Qed.

Lemma value_country_days c (d : odict details) (acc : odict Z) :
  fst (defaultdict_getitem c
         (fold_left (fun cd kv => iadd (details_0 (snd kv)) (details_3 (snd kv)) cd)
            d acc))
  = fst (defaultdict_getitem c acc) + total_for c d.
Proof.
  revert acc. induction d as [|[k t] r IH]; intros acc; simpl; [lia|].
  rewrite IH, value_iadd.
  destruct (details_0 t =? c)%string; lia.
Qed.

Lemma NoDup_keys_country_days (d : odict details) (acc : odict Z) :
  NoDup (keys acc) ->
  NoDup (keys (fold_left
                 (fun cd kv => iadd (details_0 (snd kv)) (details_3 (snd kv)) cd)
                 d acc)).
Proof.
  revert acc. induction d as [|[k t] r IH]; intros acc H; simpl; [exact H|].
  apply IH. now apply NoDup_keys_iadd.
Qed.

Lemma contains_existsb {V : Type} (c : string) (d : odict V) :
  contains c d = existsb (fun k => (k =? c)%string) (keys d).
Proof.
  induction d as [|[k v] r IH]; simpl; [reflexivity|]. now rewrite IH.
Qed.

(** The keys of the totals: those of the accumulator, then the countries not
    yet in it in the order in which the sequence first has them. *)
Lemma keys_country_days (d : odict details) (acc : odict Z) :
  keys (fold_left (fun cd kv => iadd (details_0 (snd kv)) (details_3 (snd kv)) cd)
          d acc)
  = keys acc ++ filter (fun c => negb (contains c acc)) (first_seen (countries d)).
Proof.
  revert acc. induction d as [|[k t] r IH]; intros acc; simpl.
  - now rewrite app_nil_r.
  - rewrite IH, keys_iadd. set (c0 := details_0 t).
    rewrite filter_filter.
    destruct (contains c0 acc) eqn:E; simpl.
    + f_equal. apply filter_ext. intros c.
      rewrite !contains_existsb, keys_iadd, E.
      destruct (String.eqb_spec c c0) as [->|N]; simpl; [|reflexivity].
      now rewrite <- contains_existsb, E.
    + rewrite <- app_assoc. simpl. do 2 f_equal. apply filter_ext. intros c.
      rewrite !contains_existsb, keys_iadd, E, existsb_app. simpl.
      rewrite orb_false_r, negb_orb, (String.eqb_sym c0 c). apply andb_comm.
Qed.

Lemma In_get {V : Type} (k : string) (v : V) (d : odict V) :
  NoDup (keys d) -> In (k, v) d -> get k d = Some v.
Proof.
  induction d as [|[k' v'] r IH]; simpl; [tauto|].
  intros Hn [E|Hin].
  - injection E as -> ->. now rewrite String.eqb_refl.
  - inversion Hn as [|? ? Hk Hr]; subst.
    destruct (String.eqb_spec k' k) as [->|N]; [|now apply IH].
    exfalso. apply Hk. change k with (fst (k, v)). now apply in_map.
Qed.

Lemma items_of_keys {V : Type} (f : string -> V) (d : odict V) :
  (forall k v, In (k, v) d -> v = f k) ->
  d = map (fun k => (k, f k)) (keys d).
Proof.
  induction d as [|[k v] r IH]; intros H; simpl; [reflexivity|].
  rewrite <- IH by (intros; apply H; now right).
  now rewrite <- (H k v) by now left.
Qed.

(** What [days_per_country] returns: each country of the sequence once, in
    the order of first occurrence, with the sum of its days. *)
Lemma country_days_of_spec (d : odict details) :
  country_days_of d
  = map (fun c => (c, total_for c d)) (first_seen (countries d)).
Proof.
  assert (Hk : keys (country_days_of d) = first_seen (countries d)).
  { unfold country_days_of. rewrite keys_country_days. simpl.
    induction (first_seen (countries d)) as [|c r IH]; simpl; congruence. }
  rewrite <- Hk. apply items_of_keys. intros c v Hin.
  assert (Hn : NoDup (keys (country_days_of d))).
  { apply NoDup_keys_country_days. constructor. }
  pose proof (value_country_days c d []) as Hv.
  fold (country_days_of d) in Hv. unfold defaultdict_getitem in Hv.
  rewrite (In_get _ _ _ Hn Hin) in Hv. simpl in Hv. lia.
Qed.

Lemma print_each {bytes : Type} {X : Type} (f : X -> message) (l : list X)
  (s : TravelData bytes) :
  let s' := fold_left (fun s x => print (f x) s) l s in
  data s' = data s /\ file s' = file s /\ writable s' = writable s /\
  stdout s' = stdout s ++ map f l.
Proof.
  revert s. induction l as [|x r IH]; intros s; simpl.
  - now rewrite app_nil_r.
  - destruct (IH (print (f x) s)) as (Hd & Hf & Hw & Ho).
    rewrite Hd, Hf, Hw, Ho. simpl. now rewrite <- app_assoc.
Qed.

Lemma StronglySorted_weaken {A : Type} (R R' : A -> A -> Prop) (l : list A) :
  (forall a b, R a b -> R' a b) -> StronglySorted R l -> StronglySorted R' l.
Proof.
  intros H. induction 1 as [|x r Hs IH Hf]; constructor; [exact IH|].
  eapply Forall_impl; [|exact Hf]. intros b. apply H.
Qed.

(** C7, as stated, fails: with one day in [X] and then five in [Y] the
    mapping that [days_per_country] returns has [X] before [Y], which is not
    the descending order of the totals; only the printed lines are in that
    order. *)
Lemma days_per_country_returns_first_seen_order :
  let s := store_of [("A", Tuple5 "X" 0 0 1 "Unknown");
                     ("B", Tuple5 "Y" 0 1 5 "Unknown")] in
  fst (days_per_country s) = [("X", 1); ("Y", 5)] /\
  ~ descending (fst (days_per_country s)) /\
  printed_order (fst (days_per_country s)) = [("Y", 5); ("X", 1)].
Proof.
  repeat split. intros H. cbn in H.
  inversion H as [|? ? _ Hf]; subst.
  inversion Hf as [|? ? Hc _]; subst. simpl in Hc. lia.
Qed.

(** C7, amended: [days_per_country] returns the mapping from each country
    to the sum of the days of the waypoints of that country, and the mapping
    itself enumerates the countries in the order in which the sequence first
    has them.  The lines the call prints enumerate the same entries in
    descending order of the totals, entries with equal totals in the order
    of the mapping, that is, first encountered first.  After adding
    [A] (country [X], 2 days), [B] ([Y], 3 days) and [C] ([X], 1 day) at the
    end, the result is [X: 3, Y: 3], with [X] before [Y] in both orders. *)
Theorem days_per_country_spec {bytes : Type} (s : TravelData bytes) :
  let country_days := fst (days_per_country s) in
  let s' := snd (days_per_country s) in
  country_days
  = map (fun c => (c, total_for c (data s))) (first_seen (countries (data s))) /\
  data s' = data s /\
  file s' = file s /\
  stdout s'
  = stdout s ++ MsgDaysPerCountryHeader
      :: map (fun x => MsgCountryDays (fst x) (snd x)) (printed_order country_days) /\
  Permutation (printed_order country_days) country_days /\
  descending (printed_order country_days) /\
  (forall n, with_total n (printed_order country_days) = with_total n country_days) /\
  fst (days_per_country scenario) = [("X", 3); ("Y", 3)] /\
  printed_order (fst (days_per_country scenario)) = [("X", 3); ("Y", 3)].
Proof.
  cbn zeta. unfold days_per_country. cbn [fst snd].
  set (cd := country_days_of (data s)).
  destruct (print_each (fun x => MsgCountryDays (fst x) (snd x))
              (printed_order cd) (print MsgDaysPerCountryHeader s))
    as (Hd & Hf & _ & Ho).
  cbn zeta in Hd, Hf, Ho.
  split; [apply country_days_of_spec|].
  split; [exact Hd|]. split; [exact Hf|].
  split; [rewrite Ho; simpl; now rewrite <- app_assoc|].
  split; [apply sorted_perm|].
  split.
  { unfold descending, printed_order.
    eapply StronglySorted_weaken; [|apply (sorted_sorted (fun x => - snd x))].
    intros a b. unfold le_key. simpl. lia. }
  split; [|split; reflexivity].
  intros n. unfold with_total, printed_order.
  rewrite (filter_ext (fun x : string * Z => snd x =? n)
             (fun x => - snd x =? - n)).
  - rewrite (sorted_stable (fun x => - snd x) (- n)).
    apply filter_ext. intros x.
    destruct (Z.eqb_spec (- snd x) (- n)), (Z.eqb_spec (snd x) n);
      try reflexivity; lia.
  - intros x.
    destruct (Z.eqb_spec (- snd x) (- n)), (Z.eqb_spec (snd x) n);
      try reflexivity; lia.
Qed.

(** * Persistence *)

(** C8: where the data file can be written and the pickle codec is correct,
    [save_data] followed by the construction of a new store on the same file
    gives the same ordered sequence back: the same names in the same order
    with the same details, and unique names stay unique. *)
Theorem save_load_roundtrip {bytes : Type} {P : Pickler bytes}
  (s : TravelData bytes) :
  PicklerCorrect P ->
  writable s = true ->
  let saved := save_data s in
  let fresh := init (file saved) (writable saved) in
  data fresh = data s /\
  keys (data fresh) = keys (data s) /\
  (unique_names (data s) -> unique_names (data fresh)) /\
  stdout fresh = [MsgLoaded].
Proof.
  intros HP Hw saved fresh.
  assert (E : data fresh = data s /\ stdout fresh = [MsgLoaded]).
  { unfold fresh, saved, init, load_data, save_data. rewrite Hw. cbn.
    rewrite (HP (data s)). split; reflexivity. }
  destruct E as [E Ho]. rewrite E. repeat split; tauto.
Qed.

Lemma save_load_roundtrip_witness :
  data (init (P := plain_pickler)
          (file (save_data (P := plain_pickler) (store_of route))) true)
  = route.
Proof.
  refine (proj1 (save_load_roundtrip (P := plain_pickler) (store_of route) _ _)).
  - intros d. reflexivity.
  - reflexivity.
Defined.

(** * Further properties of the store *)

Lemma NoDup_app_iff {A : Type} (l l' : list A) :
  NoDup (l ++ l') <-> NoDup l /\ NoDup l' /\ (forall a, In a l -> ~ In a l').
Proof.
  split.
  - intros H. split; [now apply NoDup_app_remove_r in H|].
    split; [now apply NoDup_app_remove_l in H|].
    induction l as [|x r IH]; simpl; [tauto|].
    inversion H as [|? ? Hx Hr]; subst. intros a [<-|Ha].
    + intros Hin. apply Hx. apply in_or_app. now right.
    + now apply IH.
  - intros (H1 & H2 & H3). now apply NoDup_app.
Qed.

(** Goals on the uniqueness of the keys of a sequence put together from the
    parts of another one *)
Lemma NoDup_nil_iff {A : Type} : NoDup (@nil A) <-> True.
Proof. split; [trivial | constructor]. Qed.

Ltac unique_keys :=
  unfold unique_names, keys in *;
  repeat (rewrite ?map_app in *; cbn [map fst app] in *);
  repeat rewrite ?NoDup_app_iff, ?NoDup_cons_iff, ?NoDup_nil_iff in *;
  cbn [In] in *;
  intuition idtac;
  repeat match goal with
         | H : In _ (_ ++ _) |- _ => apply in_app_or in H; destruct H
         | H : In _ (_ :: _) |- _ => destruct H
         | H : In _ [] |- _ => destruct H
         | H : _ \/ _ |- _ => destruct H
         end;
  subst;
  solve [eauto 8 using in_or_app, in_eq, in_cons | firstorder congruence].

Lemma NoDup_keys_delitem {V : Type} (k : string) (d : odict V) :
  NoDup (keys d) -> NoDup (keys (delitem k d)).
Proof.
  induction d as [|[k' v'] r IH]; simpl; intros H; [exact H|].
  inversion H as [|? ? Hk Hr]; subst.
  destruct (k' =? k)%string; [exact Hr|]. simpl. constructor; [|now apply IH].
  intros Hin. apply Hk. clear -Hin.
  induction r as [|[k1 v1] r IH]; simpl in *; [tauto|].
  destruct (k1 =? k)%string; simpl in *; tauto.
Qed.

Lemma get_update {V : Type} (k : string) (l o : odict V) :
  NoDup (keys o) ->
  get k (update l o) = match get k o with Some v => Some v | None => get k l end.
Proof.
  revert l. induction o as [|[k0 v0] r IH]; intros l H; [reflexivity|].
  inversion H as [|? ? Hk Hr]; subst.
  change (update l ((k0, v0) :: r)) with (update (setitem k0 v0 l) r).
  rewrite IH by assumption. simpl.
  destruct (String.eqb_spec k0 k) as [->|N].
  - apply contains_false_In, get_None_contains in Hk.
    now rewrite Hk, get_setitem_same.
  - now rewrite get_setitem_other by congruence.
Qed.

Lemma get_place_after (k name : string) (e : details) after_place
  (d upd : odict details) :
  NoDup (keys d) -> k <> name ->
  get k (place_after name e after_place d upd)
  = match get k d with Some v => Some v | None => get k upd end.
Proof.
  revert upd. induction d as [|[k0 v0] r IH]; intros upd H N; [reflexivity|].
  inversion H as [|? ? Hk Hr]; subst.
  change (place_after name e after_place ((k0, v0) :: r) upd)
    with (place_after name e after_place r
            (if key_is k0 after_place then setitem name e (setitem k0 v0 upd)
             else setitem k0 v0 upd)).
  rewrite IH by assumption. simpl.
  assert (E : get k (if key_is k0 after_place
                     then setitem name e (setitem k0 v0 upd)
                     else setitem k0 v0 upd) = get k (setitem k0 v0 upd)).
  { destruct (key_is k0 after_place); [|reflexivity].
    now rewrite get_setitem_other by congruence. }
  rewrite E. destruct (String.eqb_spec k0 k) as [->|N0].
  - apply contains_false_In, get_None_contains in Hk.
    now rewrite Hk, get_setitem_same.
  - now rewrite get_setitem_other by congruence.
Qed.

(** The sequence after an [add_location] whose coordinates were found *)
Lemma data_add_location {bytes : Type} {P : Pickler bytes} {G : Geolocator}
  name country days transport position after_place (s : TravelData bytes) lat lon :
  geocode (name ++ ", " ++ country)%string = Found lat lon ->
  data (add_location name country days transport position after_place s)
  = let e := Tuple5 country lat lon days transport in
    if (position =? "start")%string then update (setitem name e []) (data s)
    else if (position =? "after")%string && contains_opt after_place (data s)
    then place_after name e after_place (data s) []
    else setitem name e (data s).
Proof.
  intros Hg. rewrite (add_location_found _ _ _ _ _ _ _ _ _ Hg). cbn zeta.
  rewrite data_save_data. cbn [print data].
  destruct (position =? "start")%string; [reflexivity|].
  now destruct ((position =? "after")%string && _).
Qed.

Lemma contains_mid {V : Type} (k : string) (v : V) (l1 l2 : odict V) :
  contains k (l1 ++ (k, v) :: l2) = true.
Proof. apply contains_In. rewrite keys_app, in_app_iff. simpl. tauto. Qed.

(** X1: [remove_location] of a name that is not in the store prints that it
    was not found and changes nothing, the data file included; of a name that
    is there it takes out that waypoint alone: the others keep their order
    and details, and the names stay unique. *)
Theorem remove_location_spec {bytes : Type} {P : Pickler bytes}
  (name : string) (s : TravelData bytes) :
  (~ In name (keys (data s)) ->
   remove_location name s = print (MsgNotInData name) s) /\
  (forall v l1 l2,
     unique_names (data s) -> data s = l1 ++ (name, v) :: l2 ->
     let s' := remove_location name s in
     data s' = l1 ++ l2 /\
     ~ In name (keys (data s')) /\
     unique_names (data s') /\
     (forall k, k <> name -> get k (data s') = get k (data s))).
Proof.
  split.
  - intros Hn. unfold remove_location.
    apply contains_false_In in Hn. now rewrite Hn.
  - intros v l1 l2 Hd E s'. rewrite E in Hd.
    destruct (unique_names_split _ _ _ _ Hd) as (Hr & H1 & H2).
    assert (Es : data s' = l1 ++ l2).
    { unfold s', remove_location. rewrite E, contains_mid, data_save_data.
      cbn [print data set_data]. now apply delitem_mid. }
    rewrite Es. repeat split.
    + rewrite keys_app, in_app_iff. tauto.
    + exact Hr.
    + intros k N. rewrite E, <- (delitem_mid name v l1 l2 H1).
      now apply get_delitem_other.
Qed.

Lemma remove_location_spec_witness :
  data (remove_location (P := plain_pickler) "Bangkok" (store_of route))
  = [("Oslo", oslo); ("Krabi", krabi)].
Proof.
  refine (proj1 (proj2 (remove_location_spec (P := plain_pickler)
    "Bangkok" (store_of route)) bangkok [("Oslo", oslo)] [("Krabi", krabi)]
    _ eq_refl)).
  repeat constructor; simpl; intuition discriminate.
Defined.

(** X2: an [add_location] of a new name, at whatever position, is undone by
    [remove_location] of that name: the sequence is again what it was. *)
Theorem remove_undoes_add_location
  {bytes : Type} {P : Pickler bytes} {G : Geolocator}
  (name country : string) (days : Z) (transport position : string)
  (after_place : option string) (lat lon : float) (s : TravelData bytes) :
  unique_names (data s) ->
  ~ In name (keys (data s)) ->
  geocode (name ++ ", " ++ country)%string = Found lat lon ->
  data (remove_location name
          (add_location name country days transport position after_place s))
  = data s.
Proof.
  intros Hd Hn Hg.
  set (s1 := add_location name country days transport position after_place s).
  assert (E1 := data_add_location name country days transport position
                  after_place s lat lon Hg).
  fold s1 in E1. cbn zeta in E1.
  set (e := Tuple5 country lat lon days transport) in *.
  pose proof (replacement_cases name position after_place e (data s) Hd Hn) as C.
  cbn zeta in C. rewrite <- E1 in C.
  assert (R : forall l1 l2, data s1 = l1 ++ (name, e) :: l2 ->
                ~ In name (keys l1) ->
                data (remove_location name s1) = l1 ++ l2).
  { intros l1 l2 E H1. unfold remove_location.
    rewrite E, contains_mid, data_save_data. cbn [print data set_data].
    now apply delitem_mid. }
  destruct C as [[_ E]|[(_ & a & w & m1 & m2 & _ & Er & E)|(_ & _ & E)]].
  - apply (R [] (data s) E). simpl. tauto.
  - rewrite Er in *.
    replace (m1 ++ (a, w) :: (name, e) :: m2)
      with ((m1 ++ [(a, w)]) ++ (name, e) :: m2) in E
      by (now rewrite <- app_assoc).
    rewrite (R _ _ E); [now rewrite <- app_assoc|].
    rewrite !keys_app, !in_app_iff in *. simpl in *. intuition congruence.
  - rewrite (R (data s) [] E Hn). apply app_nil_r.
Qed.

Lemma remove_undoes_add_location_witness :
  data (remove_location (P := plain_pickler) "Hanoi"
          (add_location (P := plain_pickler) (G := atlas)
             "Hanoi" "Vietnam" 3 "Bus" "after" (Some "Oslo") (store_of route)))
  = route.
Proof.
  refine (remove_undoes_add_location (P := plain_pickler) (G := atlas)
    "Hanoi" "Vietnam" 3 "Bus" "after" (Some "Oslo") 59.5 10.75
    (store_of route) _ _ eq_refl).
  - repeat constructor; simpl; intuition discriminate.
  - simpl; intuition discriminate.
Defined.

Lemma unique_names_placement (name position : string)
  (after_place : option string) (e : details) (d : odict details) :
  unique_names d ->
  unique_names
    (if (position =? "start")%string then update (setitem name e []) d
     else if (position =? "after")%string && contains_opt after_place d
     then place_after name e after_place d []
     else setitem name e d).
Proof.
  intros Hd. unfold unique_names.
  destruct (position =? "start")%string.
  - apply NoDup_keys_update. simpl. repeat constructor. simpl. tauto.
  - destruct ((position =? "after")%string && _).
    + apply NoDup_keys_place_after. constructor.
    + now apply NoDup_keys_setitem.
Qed.

(** X3: no method makes two waypoints share a name.  On a store with
    unique names, [add_location], [remove_location], [move_location],
    [change_location_name], [change_days], [change_transport],
    [change_country] and [clear_data] all leave the names unique, whatever
    their arguments and whatever the geocoder answers. *)
Theorem unique_names_preserved
  {bytes : Type} {P : Pickler bytes} {G : Geolocator} (s : TravelData bytes) :
  unique_names (data s) ->
  (forall name country days transport position after_place,
     unique_names
       (data (add_location name country days transport position after_place s))) /\
  (forall name, unique_names (data (remove_location name s))) /\
  (forall name new_position after_place,
     unique_names (data (move_location name new_position after_place s))) /\
  (forall old_name new_name,
     unique_names (data (change_location_name old_name new_name s))) /\
  (forall name new_days,
     unique_names (data (state_of (change_days name new_days s)))) /\
  (forall name new_transport,
     unique_names (data (state_of (change_transport name new_transport s)))) /\
  (forall name new_country,
     unique_names (data (state_of (change_country name new_country s)))) /\
  unique_names (data (clear_data s)).
Proof.
  intros Hd. repeat split.
  - intros name country days transport position after_place.
    destruct (geocode (name ++ ", " ++ country)%string) as [lat lon| |] eqn:Hg.
    + rewrite (data_add_location _ _ _ _ _ _ _ _ _ Hg).
      now apply unique_names_placement.
    + unfold add_location, get_lat_lon. now rewrite Hg.
    + unfold add_location, get_lat_lon. now rewrite Hg.
  - intros name. unfold remove_location.
    destruct (contains name (data s)); [|exact Hd].
    rewrite data_save_data. now apply NoDup_keys_delitem.
  - intros name new_position after_place. unfold move_location, pop.
    destruct (contains name (data s)); [|exact Hd]. cbn [negb].
    destruct (get name (data s)); [|exact Hd].
    rewrite data_save_data. cbn [print data set_data].
    apply unique_names_placement. now apply NoDup_keys_delitem.
  - intros old_name new_name. unfold change_location_name, pop.
    destruct (contains old_name (data s)); [|exact Hd].
    destruct (get old_name (data s)); [|exact Hd].
    rewrite data_save_data. cbn [print data set_data].
    apply NoDup_keys_setitem. now apply NoDup_keys_delitem.
  - intros name new_days. unfold change_days.
    destruct (contains name (data s)); [|exact Hd].
    destruct (get name (data s)) as [[| ]|]; cbn [state_of]; try exact Hd.
    rewrite data_save_data. now apply NoDup_keys_setitem.
  - intros name new_transport. unfold change_transport.
    destruct (contains name (data s)); [|exact Hd].
    destruct (get name (data s)) as [[| ]|]; cbn [state_of]; try exact Hd.
    rewrite data_save_data. now apply NoDup_keys_setitem.
  - intros name new_country. unfold change_country.
    destruct (contains name (data s)); [|exact Hd].
    destruct (get name (data s)) as [[| ]|]; cbn [state_of]; try exact Hd.
    rewrite data_save_data. now apply NoDup_keys_setitem.
  - unfold clear_data. cbn [print data]. rewrite data_save_data. constructor.
Qed.

Lemma unique_names_preserved_witness :
  unique_names
    (data (move_location (P := plain_pickler) "Oslo" "after" (Some "Krabi")
             (store_of route))).
Proof.
  refine (proj1 (proj2 (proj2
    (unique_names_preserved (P := plain_pickler) (G := atlas) (store_of route) _)))
    "Oslo" "after" (Some "Krabi")).
  repeat constructor; simpl; intuition discriminate.
Defined.

(** X4: an [add_location] whose coordinates were found always leaves the
    name in the store, whatever the position and [after_place], and touches
    no other waypoint: every other name keeps its details. *)
Theorem add_location_keeps_others
  {bytes : Type} {P : Pickler bytes} {G : Geolocator}
  (name country : string) (days : Z) (transport position : string)
  (after_place : option string) (lat lon : float) (s : TravelData bytes) :
  unique_names (data s) ->
  geocode (name ++ ", " ++ country)%string = Found lat lon ->
  let s' := add_location name country days transport position after_place s in
  In name (keys (data s')) /\
  (forall k, k <> name -> get k (data s') = get k (data s)).
Proof.
  intros Hd Hg s'. unfold s'. rewrite (data_add_location _ _ _ _ _ _ _ _ _ Hg).
  cbn zeta. set (e := Tuple5 country lat lon days transport).
  destruct (position =? "start")%string.
  - split.
    + apply In_keys_update. left. simpl. tauto.
    + intros k N. rewrite get_update by exact Hd.
      destruct (get k (data s)); [reflexivity|]. simpl.
      destruct (String.eqb_spec name k); [congruence | reflexivity].
  - destruct ((position =? "after")%string && _) eqn:Hb.
    + apply andb_true_iff in Hb. destruct Hb as [_ Hc]. split.
      * apply In_keys_place_after. right. right. now split.
      * intros k N. rewrite get_place_after by assumption.
        now destruct (get k (data s)).
    + split.
      * apply In_keys_setitem. now left.
      * intros k N. now apply get_setitem_other.
Qed.

Lemma add_location_keeps_others_witness :
  get "Krabi"
    (data (add_location (P := plain_pickler) (G := atlas)
             "Oslo" "Sweden" 1 "Ferry" "after" (Some "Bangkok") (store_of route)))
  = Some krabi.
Proof.
  refine (proj2 (add_location_keeps_others (P := plain_pickler) (G := atlas)
    "Oslo" "Sweden" 1 "Ferry" "after" (Some "Bangkok") 59.5 10.75
    (store_of route) _ eq_refl) "Krabi" _).
  - repeat constructor; simpl; intuition discriminate.
  - discriminate.
Defined.

(** X5: where [add_location] finds the name already in the store, what
    happens depends on the branch.  With ["end"], and with ["after"] the name
    itself, the waypoint keeps its place and takes the new details.  With
    ["after"] a waypoint that comes later in the sequence it also keeps its
    place and takes the new details.  With ["after"] a waypoint that comes
    earlier it moves right behind that waypoint but keeps its old details. *)
Theorem add_location_existing_placement
  {bytes : Type} {P : Pickler bytes} {G : Geolocator}
  (name country : string) (days : Z) (transport : string) (lat lon : float)
  (s : TravelData bytes) :
  unique_names (data s) ->
  geocode (name ++ ", " ++ country)%string = Found lat lon ->
  let e := Tuple5 country lat lon days transport in
  (forall old l1 l2 after_place, data s = l1 ++ (name, old) :: l2 ->
     data (add_location name country days transport "end" after_place s)
     = l1 ++ (name, e) :: l2) /\
  (forall old l1 l2, data s = l1 ++ (name, old) :: l2 ->
     data (add_location name country days transport "after" (Some name) s)
     = l1 ++ (name, e) :: l2) /\
  (forall old a w l1 l2 l3, data s = l1 ++ (name, old) :: l2 ++ (a, w) :: l3 ->
     data (add_location name country days transport "after" (Some a) s)
     = l1 ++ (name, e) :: l2 ++ (a, w) :: l3) /\
  (forall old a w l1 l2 l3, data s = l1 ++ (a, w) :: l2 ++ (name, old) :: l3 ->
     data (add_location name country days transport "after" (Some a) s)
     = l1 ++ (a, w) :: (name, old) :: l2 ++ l3).
Proof.
  intros Hd Hg e. repeat split.
  - intros old l1 l2 ap E. rewrite (data_add_location _ _ _ _ _ _ _ _ _ Hg).
    cbn zeta. fold e. change ("end" =? "start")%string with false.
    change ("end" =? "after")%string with false. cbn [andb].
    rewrite E in *. apply setitem_mid. unique_keys.
  - intros old l1 l2 E. rewrite (data_add_location _ _ _ _ _ _ _ _ _ Hg).
    cbn zeta. fold e. change ("after" =? "start")%string with false.
    change ("after" =? "after")%string with true. rewrite E in *.
    cbn [andb contains_opt]. rewrite contains_mid.
    rewrite place_after_split by unique_keys.
    rewrite (update_app [] l1) by unique_keys. cbn [app].
    rewrite (setitem_fresh name old l1) by unique_keys.
    rewrite (setitem_mid name e old l1 []) by unique_keys.
    rewrite place_after_absent
      by (cbn [contains_opt]; apply contains_false_In; unique_keys).
    rewrite update_app by unique_keys.
    now rewrite <- app_assoc.
  - intros old a w l1 l2 l3 E. rewrite (data_add_location _ _ _ _ _ _ _ _ _ Hg).
    cbn zeta. fold e. change ("after" =? "start")%string with false.
    change ("after" =? "after")%string with true. rewrite E in *.
    replace (l1 ++ (name, old) :: l2 ++ (a, w) :: l3)
      with ((l1 ++ (name, old) :: l2) ++ (a, w) :: l3) in *
      by (rewrite <- app_assoc; reflexivity).
    cbn [andb contains_opt]. rewrite contains_mid.
    rewrite place_after_split by unique_keys.
    rewrite (update_app [] (l1 ++ (name, old) :: l2)) by unique_keys. cbn [app].
    rewrite (setitem_fresh a w) by unique_keys.
    rewrite <- app_assoc. cbn [app].
    rewrite (setitem_mid name e old l1 (l2 ++ [(a, w)])) by unique_keys.
    rewrite place_after_absent
      by (cbn [contains_opt]; apply contains_false_In; unique_keys).
    rewrite update_app by unique_keys.
    rewrite <- !app_assoc. cbn [app]. now rewrite <- app_assoc.
  - intros old a w l1 l2 l3 E. rewrite (data_add_location _ _ _ _ _ _ _ _ _ Hg).
    cbn zeta. fold e. change ("after" =? "start")%string with false.
    change ("after" =? "after")%string with true. rewrite E in *.
    cbn [andb contains_opt]. rewrite contains_mid.
    assert (Hne : a <> name) by unique_keys.
    rewrite place_after_split by unique_keys.
    rewrite (update_app [] l1) by unique_keys. cbn [app].
    rewrite (setitem_fresh a w l1) by unique_keys.
    rewrite (setitem_fresh name e (l1 ++ [(a, w)])) by unique_keys.
    rewrite place_after_absent
      by (cbn [contains_opt]; apply contains_false_In; unique_keys).
    rewrite update_split.
    rewrite (update_app _ l2) by unique_keys.
    change (update (((l1 ++ [(a, w)]) ++ [(name, e)]) ++ l2) ((name, old) :: l3))
      with (update (setitem name old (((l1 ++ [(a, w)]) ++ [(name, e)]) ++ l2)) l3).
    rewrite <- !app_assoc. cbn [app].
    replace (l1 ++ (a, w) :: (name, e) :: l2)
      with ((l1 ++ [(a, w)]) ++ (name, e) :: l2)
      by (rewrite <- app_assoc; reflexivity).
    rewrite (setitem_mid name old e (l1 ++ [(a, w)]) l2) by unique_keys.
    rewrite update_app by unique_keys.
    rewrite <- !app_assoc. reflexivity.
Qed.

Lemma add_location_existing_placement_witness :
  data (add_location (P := plain_pickler) (G := atlas)
          "Krabi" "Siam" 9 "Boat" "after" (Some "Oslo") (store_of route))
  = [("Oslo", oslo); ("Krabi", krabi); ("Bangkok", bangkok)].
Proof.
  refine (proj2 (proj2 (proj2
    (add_location_existing_placement (P := plain_pickler) (G := atlas)
       "Krabi" "Siam" 9 "Boat" 59.5 10.75 (store_of route) _ eq_refl)))
    krabi "Oslo" oslo [] [("Bangkok", bangkok)] [] eq_refl).
  repeat constructor; simpl; intuition discriminate.
Defined.

(** ** The totals *)

Lemma fold_left_add_days (l : list details) (acc : Z) :
  fold_left (fun acc t => acc + details_3 t) l acc
  = acc + fold_right Z.add 0 (map details_3 l).
Proof.
  revert acc. induction l as [|t r IH]; intros acc; simpl; [lia|].
  rewrite IH. lia.
Qed.

Lemma total_days_sum {bytes : Type} (s : TravelData bytes) :
  fst (total_days s) = sum_of_days (data s).
Proof. unfold total_days, sum_of_days. cbn [fst]. now rewrite fold_left_add_days. Qed.

Lemma sum_of_days_app (l1 l2 : odict details) :
  sum_of_days (l1 ++ l2) = sum_of_days l1 + sum_of_days l2.
Proof.
  unfold sum_of_days, values. induction l1 as [|x r IH]; simpl; [reflexivity|].
  rewrite IH. lia.
Qed.

Lemma sum_of_days_perm (d1 d2 : odict details) :
  Permutation d1 d2 -> sum_of_days d1 = sum_of_days d2.
Proof.
  unfold sum_of_days, values.
  induction 1; simpl; lia || congruence.
Qed.

(** X6: [total_days] returns the sum of the days of all waypoints, prints it
    and leaves the store alone; the sum does not depend on the order of the
    waypoints: two stores whose sequences are rearrangements of each other
    have the same total. *)
Theorem total_days_order_independent {bytes : Type} (s1 s2 : TravelData bytes) :
  Permutation (data s1) (data s2) ->
  fst (total_days s1) = fst (total_days s2) /\
  fst (total_days s1) = sum_of_days (data s1) /\
  snd (total_days s1) = print (MsgTotalDays (sum_of_days (data s1))) s1.
Proof.
  intros H. rewrite !total_days_sum. repeat split.
  - now apply sum_of_days_perm.
  - unfold total_days. cbn [snd]. now rewrite fold_left_add_days.
Qed.

Lemma total_days_order_independent_witness :
  fst (total_days (store_of route))
  = fst (total_days (store_of [("Krabi", krabi); ("Oslo", oslo); ("Bangkok", bangkok)])).
Proof.
  refine (proj1 (total_days_order_independent (store_of route)
    (store_of [("Krabi", krabi); ("Oslo", oslo); ("Bangkok", bangkok)]) _)).
  apply Permutation_sym.
  exact (Permutation_cons_append [("Oslo", oslo); ("Bangkok", bangkok)]
           ("Krabi", krabi)).
Defined.

(** The sequence after [move_location] is a rearrangement of the one before. *)
Lemma move_location_permutation {bytes : Type} {P : Pickler bytes}
  (name new_position : string) (after_place : option string)
  (s : TravelData bytes) :
  unique_names (data s) ->
  Permutation (data (move_location name new_position after_place s)) (data s).
Proof.
  intros Hd. destruct (get name (data s)) as [v|] eqn:Eg.
  - destruct (get_split _ _ _ Eg) as (l1 & l2 & E & H1).
    rewrite (move_location_present _ _ _ _ _ _ _ E H1), data_save_data.
    cbn [print data set_data]. rewrite E in Hd |- *.
    destruct (unique_names_split _ _ _ _ Hd) as (Hr & _ & H2).
    assert (Hn : ~ In name (keys (l1 ++ l2)))
      by (rewrite keys_app, in_app_iff; tauto).
    pose proof (replacement_cases name new_position after_place v _ Hr Hn) as C.
    cbn zeta in C.
    apply Permutation_trans with ((name, v) :: l1 ++ l2);
      [|apply Permutation_middle].
    destruct C as [[_ ->]|[(_ & a & w & m1 & m2 & _ & Er & ->)|(_ & _ & ->)]].
    + reflexivity.
    + rewrite Er. symmetry.
      replace (m1 ++ (a, w) :: (name, v) :: m2)
        with ((m1 ++ [(a, w)]) ++ (name, v) :: m2)
        by (now rewrite <- app_assoc).
      replace (m1 ++ (a, w) :: m2) with ((m1 ++ [(a, w)]) ++ m2)
        by (now rewrite <- app_assoc).
      apply Permutation_middle.
    + symmetry. apply Permutation_cons_append.
  - apply get_None_contains in Eg. unfold move_location. now rewrite Eg.
Qed.

(** X7: how the methods move the total of the days.  [move_location] and
    [change_location_name] leave it as it is; [remove_location] of a
    waypoint takes its days off; [add_location] of a new name with
    coordinates found puts the days of the new waypoint on. *)
Theorem total_days_bookkeeping
  {bytes : Type} {P : Pickler bytes} {G : Geolocator} (s : TravelData bytes) :
  unique_names (data s) ->
  (forall name new_position after_place,
     fst (total_days (move_location name new_position after_place s))
     = fst (total_days s)) /\
  (forall old_name new_name, ~ In new_name (keys (data s)) ->
     fst (total_days (change_location_name old_name new_name s))
     = fst (total_days s)) /\
  (forall name v, get name (data s) = Some v ->
     fst (total_days (remove_location name s))
     = fst (total_days s) - details_3 v) /\
  (forall name country days transport position after_place lat lon,
     ~ In name (keys (data s)) ->
     geocode (name ++ ", " ++ country)%string = Found lat lon ->
     fst (total_days
            (add_location name country days transport position after_place s))
     = fst (total_days s) + days).
Proof.
  intros Hd. repeat split.
  - intros. rewrite !total_days_sum. apply sum_of_days_perm.
    now apply move_location_permutation.
  - intros old_name new_name Hn. rewrite !total_days_sum.
    unfold change_location_name, pop.
    destruct (get old_name (data s)) as [v|] eqn:Eg.
    + rewrite (get_Some_contains _ _ _ Eg), data_save_data.
      cbn [print data set_data].
      destruct (get_split _ _ _ Eg) as (l1 & l2 & E & H1).
      rewrite E in *. rewrite (delitem_mid _ _ _ _ H1).
      rewrite setitem_fresh.
      * rewrite !sum_of_days_app. unfold sum_of_days. simpl. lia.
      * rewrite keys_app, in_app_iff in *. simpl in Hn. tauto.
    + apply get_None_contains in Eg. now rewrite Eg.
  - intros name v Eg. rewrite !total_days_sum. unfold remove_location.
    rewrite (get_Some_contains _ _ _ Eg), data_save_data.
    cbn [print data set_data].
    destruct (get_split _ _ _ Eg) as (l1 & l2 & E & H1).
    rewrite E, (delitem_mid _ _ _ _ H1), !sum_of_days_app.
    unfold sum_of_days. simpl. lia.
  - intros name country days transport position after_place lat lon Hn Hg.
    rewrite !total_days_sum, (data_add_location _ _ _ _ _ _ _ _ _ Hg). cbn zeta.
    set (e := Tuple5 country lat lon days transport).
    pose proof (replacement_cases name position after_place e _ Hd Hn) as C.
    cbn zeta in C.
    destruct C as [[_ ->]|[(_ & a & w & m1 & m2 & _ & Er & ->)|(_ & _ & ->)]].
    + unfold sum_of_days. simpl. lia.
    + rewrite Er, !sum_of_days_app. unfold sum_of_days. simpl. lia.
    + rewrite sum_of_days_app. unfold sum_of_days. simpl. lia.
Qed.

Lemma total_days_bookkeeping_witness :
  fst (total_days (remove_location (P := plain_pickler) "Krabi" (store_of route)))
  = fst (total_days (store_of route)) - 3.
Proof.
  refine (proj1 (proj2 (proj2
    (total_days_bookkeeping (P := plain_pickler) (G := atlas) (store_of route) _)))
    "Krabi" krabi eq_refl).
  repeat constructor; simpl; intuition discriminate.
Defined.

Lemma sum_of_totals_setitem (k : string) (v : Z) (cd : odict Z) :
  sum_of_totals (setitem k v cd)
  = sum_of_totals cd - fst (defaultdict_getitem k cd) + v.
Proof.
  unfold sum_of_totals, defaultdict_getitem, values.
  induction cd as [|[k' v'] r IH]; simpl; [lia|].
  destruct (k' =? k)%string; simpl; [lia|].
  rewrite IH. destruct (get k r); simpl; lia.
Qed.

Lemma sum_of_totals_iadd (c : string) (n : Z) (cd : odict Z) :
  sum_of_totals (iadd c n cd) = sum_of_totals cd + n.
Proof.
  unfold iadd. destruct (defaultdict_getitem c cd) as [v d'] eqn:E.
  rewrite sum_of_totals_setitem. unfold defaultdict_getitem in *.
  destruct (get c cd) as [v0|] eqn:Eg; injection E as <- <-.
  - rewrite Eg. simpl. lia.
  - rewrite get_setitem_same, sum_of_totals_setitem.
    unfold defaultdict_getitem. rewrite Eg. simpl. lia.
Qed.

(** X8: the totals that [days_per_country] returns add up to what
    [total_days] returns: every day of the itinerary is counted for one
    country. *)
Theorem days_per_country_sums_to_total_days {bytes : Type} (s : TravelData bytes) :
  sum_of_totals (fst (days_per_country s)) = fst (total_days s).
Proof.
  rewrite total_days_sum. unfold days_per_country, country_days_of. cbn [fst].
  assert (H : forall d acc,
    sum_of_totals
      (fold_left (fun cd kv => iadd (details_0 (snd kv)) (details_3 (snd kv)) cd)
         d acc)
    = sum_of_totals acc + sum_of_days d).
  { induction d as [|[k t] r IH]; intros acc; simpl.
    - unfold sum_of_days. simpl. lia.
    - rewrite IH, sum_of_totals_iadd. unfold sum_of_days. simpl. lia. }
  rewrite H. unfold sum_of_totals. simpl. lia.
Qed.

(** ** The field updates *)

(** X9: [change_transport] on a name that is absent prints that it was not
    found and changes nothing.  On a waypoint stored as a five-tuple it sets
    the transport alone: country, coordinates and days are kept, the waypoint
    keeps its place, the others are untouched.  On a four-tuple the unpacking
    into five names raises [ValueError] and the store is left as it was. *)
Theorem change_transport_spec {bytes : Type} {P : Pickler bytes}
  (name new_transport : string) (s : TravelData bytes) :
  (~ In name (keys (data s)) ->
   change_transport name new_transport s
   = Returned tt (print (MsgNotInTravelList name) s)) /\
  (forall country lat lon days transport l1 l2,
     ~ In name (keys l1) ->
     data s = l1 ++ (name, Tuple5 country lat lon days transport) :: l2 ->
     exists s',
       change_transport name new_transport s = Returned tt s' /\
       data s' = l1 ++ (name, Tuple5 country lat lon days new_transport) :: l2) /\
  (forall country lat lon days l1 l2,
     ~ In name (keys l1) ->
     data s = l1 ++ (name, Tuple4 country lat lon days) :: l2 ->
     change_transport name new_transport s = Raised ValueError s).
Proof.
  repeat split.
  - intros Hn. unfold change_transport.
    apply contains_false_In in Hn. now rewrite Hn.
  - intros country lat lon days transport l1 l2 H1 E. unfold change_transport.
    rewrite E, contains_mid, get_mid by assumption.
    eexists. split; [reflexivity|].
    rewrite data_save_data. cbn [print data set_data]. now apply setitem_mid.
  - intros country lat lon days l1 l2 H1 E. unfold change_transport.
    now rewrite E, contains_mid, get_mid by assumption.
Qed.

Lemma change_transport_spec_witness :
  data (state_of (change_transport (P := plain_pickler) "Bangkok" "Train"
                    (store_of route)))
  = [("Oslo", oslo); ("Bangkok", Tuple5 "Thailand" 13.75 100.5 4 "Train");
     ("Krabi", krabi)].
Proof.
  destruct (proj1 (proj2 (change_transport_spec (P := plain_pickler)
    "Bangkok" "Train" (store_of route))) "Thailand" 13.75%float 100.5%float 4
    "Bus" [("Oslo", oslo)] [("Krabi", krabi)]) as (s' & E & Hd).
  - simpl. intuition discriminate.
  - reflexivity.
  - rewrite E. exact Hd.
Defined.

(** X10: [change_country] on a name that is absent prints that it was not
    found and changes nothing.  On a five-tuple it sets the country alone:
    the coordinates are not looked up again, days and transport are kept, the
    waypoint keeps its place.  On a four-tuple it raises [ValueError] and the
    store is left as it was. *)
Theorem change_country_spec {bytes : Type} {P : Pickler bytes}
  (name new_country : string) (s : TravelData bytes) :
  (~ In name (keys (data s)) ->
   change_country name new_country s
   = Returned tt (print (MsgNotInTravelList name) s)) /\
  (forall country lat lon days transport l1 l2,
     ~ In name (keys l1) ->
     data s = l1 ++ (name, Tuple5 country lat lon days transport) :: l2 ->
     exists s',
       change_country name new_country s = Returned tt s' /\
       data s' = l1 ++ (name, Tuple5 new_country lat lon days transport) :: l2) /\
  (forall country lat lon days l1 l2,
     ~ In name (keys l1) ->
     data s = l1 ++ (name, Tuple4 country lat lon days) :: l2 ->
     change_country name new_country s = Raised ValueError s).
Proof.
  repeat split.
  - intros Hn. unfold change_country.
    apply contains_false_In in Hn. now rewrite Hn.
  - intros country lat lon days transport l1 l2 H1 E. unfold change_country.
    rewrite E, contains_mid, get_mid by assumption.
    eexists. split; [reflexivity|].
    rewrite data_save_data. cbn [print data set_data]. now apply setitem_mid.
  - intros country lat lon days l1 l2 H1 E. unfold change_country.
    now rewrite E, contains_mid, get_mid by assumption.
Qed.

Lemma change_country_spec_witness :
  data (state_of (change_country (P := plain_pickler) "Krabi" "Siam"
                    (store_of route)))
  = [("Oslo", oslo); ("Bangkok", bangkok);
     ("Krabi", Tuple5 "Siam" 8.125 98.875 3 "Train")].
Proof.
  destruct (proj1 (proj2 (change_country_spec (P := plain_pickler)
    "Krabi" "Siam" (store_of route))) "Thailand" 8.125%float 98.875%float 3
    "Train" [("Oslo", oslo); ("Bangkok", bangkok)] []) as (s' & E & Hd).
  - simpl. intuition discriminate.
  - reflexivity.
  - rewrite E. exact Hd.
Defined.

(** X11: [change_days] on a name that is absent prints that it was not
    found and changes nothing.  On a waypoint stored as a four-tuple it sets
    the days alone and stores a four-tuple again, in the same place. *)
Theorem change_days_spec {bytes : Type} {P : Pickler bytes}
  (name : string) (new_days : Z) (s : TravelData bytes) :
  (~ In name (keys (data s)) ->
   change_days name new_days s
   = Returned tt (print (MsgNotInTravelList name) s)) /\
  (forall country lat lon days l1 l2,
     ~ In name (keys l1) ->
     data s = l1 ++ (name, Tuple4 country lat lon days) :: l2 ->
     exists s',
       change_days name new_days s = Returned tt s' /\
       data s' = l1 ++ (name, Tuple4 country lat lon new_days) :: l2).
Proof.
  split.
  - intros Hn. unfold change_days.
    apply contains_false_In in Hn. now rewrite Hn.
  - intros country lat lon days l1 l2 H1 E. unfold change_days.
    rewrite E, contains_mid, get_mid by assumption.
    eexists. split; [reflexivity|].
    rewrite data_save_data. cbn [print data set_data]. now apply setitem_mid.
Qed.

Lemma change_days_spec_witness :
  data (state_of (change_days (P := plain_pickler) "Hue" 5
                    (store_of [("Oslo", oslo);
                               ("Hue", Tuple4 "Vietnam" 16.5 107.5 2)])))
  = [("Oslo", oslo); ("Hue", Tuple4 "Vietnam" 16.5 107.5 5)].
Proof.
  destruct (proj2 (change_days_spec (P := plain_pickler) "Hue" 5
    (store_of [("Oslo", oslo); ("Hue", Tuple4 "Vietnam" 16.5 107.5 2)]))
    "Vietnam" 16.5%float 107.5%float 2 [("Oslo", oslo)] []) as (s' & E & Hd).
  - simpl. intuition discriminate.
  - reflexivity.
  - rewrite E. exact Hd.
Defined.

(** ** The data file *)

Section SnapshotFacts.
Context {bytes : Type} {P : Pickler bytes}.
Implicit Types (s : TravelData bytes).

Lemma snapshot_save_data s :
  PicklerCorrect P -> writable s = true -> snapshot_current (save_data s).
Proof.
  intros HP Hw. unfold save_data. rewrite Hw.
  exists (pickle_dump (data s)). split; [reflexivity | apply HP].
Qed.

Lemma snapshot_print m s : snapshot_current s -> snapshot_current (print m s).
Proof. intros (b & Hf & Hl). now exists b. Qed.

Lemma snapshot_reload s (w : bool) :
  snapshot_current s -> data (init (file s) w) = data s.
Proof.
  intros (b & Hf & Hl). unfold init, load_data. cbn [file].
  now rewrite Hf, Hl.
Qed.


End SnapshotFacts.

(** X12: with a correct pickle codec and a data file that can be written,
    every method keeps the file in step with the store: if the file loads as
    the current sequence before the call (as after construction from an
    existing file), it does so after the call, whether the call changed the
    store or did nothing; so a new store built on the file has the sequence
    the call left. *)
Theorem snapshot_kept_current
  {bytes : Type} {P : Pickler bytes} {G : Geolocator} (s : TravelData bytes) :
  PicklerCorrect P ->
  writable s = true ->
  snapshot_current s ->
  (forall name country days transport position after_place,
     snapshot_current
       (add_location name country days transport position after_place s)) /\
  (forall name, snapshot_current (remove_location name s)) /\
  (forall name new_position after_place,
     snapshot_current (move_location name new_position after_place s)) /\
  (forall old_name new_name,
     snapshot_current (change_location_name old_name new_name s)) /\
  (forall name new_days, snapshot_current (state_of (change_days name new_days s))) /\
  (forall name new_transport,
     snapshot_current (state_of (change_transport name new_transport s))) /\
  (forall name new_country,
     snapshot_current (state_of (change_country name new_country s))) /\
  snapshot_current (clear_data s) /\
  (forall s' : TravelData bytes,
     snapshot_current s' -> data (init (file s') (writable s')) = data s').
Proof.
  intros HP Hw Hs. repeat split.
  - intros name country days transport position after_place.
    unfold add_location, get_lat_lon.
    destruct (geocode (name ++ ", " ++ country)%string);
      [|now repeat apply snapshot_print..].
    apply snapshot_save_data; [exact HP|].
    destruct (position =? "start")%string; [exact Hw|].
    now destruct ((position =? "after")%string && _).
  - intros name. unfold remove_location.
    destruct (contains name (data s)); [|now apply snapshot_print].
    now apply snapshot_save_data.
  - intros name new_position after_place. unfold move_location, pop.
    destruct (contains name (data s)); [|now apply snapshot_print]. cbn [negb].
    destruct (get name (data s)); [|exact Hs].
    now apply snapshot_save_data.
  - intros old_name new_name. unfold change_location_name, pop.
    destruct (contains old_name (data s)); [|now apply snapshot_print].
    destruct (get old_name (data s)); [|exact Hs].
    now apply snapshot_save_data.
  - intros name new_days. unfold change_days.
    destruct (contains name (data s)); [|now apply snapshot_print].
    destruct (get name (data s)) as [[| ]|]; cbn [state_of]; try exact Hs.
    now apply snapshot_save_data.
  - intros name new_transport. unfold change_transport.
    destruct (contains name (data s)); [|now apply snapshot_print].
    destruct (get name (data s)) as [[| ]|]; cbn [state_of]; try exact Hs.
    now apply snapshot_save_data.
  - intros name new_country. unfold change_country.
    destruct (contains name (data s)); [|now apply snapshot_print].
    destruct (get name (data s)) as [[| ]|]; cbn [state_of]; try exact Hs.
    now apply snapshot_save_data.
  - unfold clear_data. apply snapshot_print. now apply snapshot_save_data.
  - intros s'. apply snapshot_reload.
Qed.

Lemma snapshot_kept_current_witness :
  snapshot_current (P := plain_pickler)
    (remove_location (P := plain_pickler) "Oslo"
       (save_data (P := plain_pickler) (store_of route))).
Proof.
  refine (proj1 (proj2 (snapshot_kept_current (P := plain_pickler) (G := atlas)
    (save_data (P := plain_pickler) (store_of route)) _ _ _)) "Oslo").
  - intros d. reflexivity.
  - reflexivity.
  - exists route. split; reflexivity.
Defined.



(** ** Calls one after the other *)

Lemma data_change_location_name {bytes : Type} {P : Pickler bytes}
  (old_name new_name : string) (v : details) (l1 l2 : odict details)
  (s : TravelData bytes) :
  ~ In old_name (keys l1) ->
  data s = l1 ++ (old_name, v) :: l2 ->
  data (change_location_name old_name new_name s) = setitem new_name v (l1 ++ l2).
Proof.
  intros H1 E. unfold change_location_name, pop.
  rewrite E, contains_mid, get_mid, delitem_mid by assumption.
  now rewrite data_save_data.
Qed.

(** X14: renaming a waypoint to a new name and back again does not restore
    the sequence: the waypoint has its old name and its details, but it is
    now the last one, the others keeping their order. *)
Theorem rename_there_and_back {bytes : Type} {P : Pickler bytes}
  (name other : string) (v : details) (l1 l2 : odict details)
  (s : TravelData bytes) :
  unique_names (data s) ->
  data s = l1 ++ (name, v) :: l2 ->
  ~ In other (keys (data s)) ->
  data (change_location_name other name (change_location_name name other s))
  = l1 ++ l2 ++ [(name, v)].
Proof.
  intros Hd E Hn. rewrite E in Hd, Hn.
  assert (E1 : data (change_location_name name other s)
               = (l1 ++ l2) ++ (other, v) :: []).
  { rewrite (data_change_location_name name other v l1 l2 s) by (unique_keys || exact E).
    apply setitem_fresh. unique_keys. }
  rewrite (data_change_location_name other name v (l1 ++ l2) [] _) by (unique_keys || exact E1).
  rewrite app_nil_r, setitem_fresh by unique_keys.
  now rewrite app_assoc.
Qed.

Lemma rename_there_and_back_witness :
  data (change_location_name (P := plain_pickler) "Stockholm" "Oslo"
          (change_location_name (P := plain_pickler) "Oslo" "Stockholm"
             (store_of route)))
  = [("Bangkok", bangkok); ("Krabi", krabi); ("Oslo", oslo)].
Proof.
  refine (rename_there_and_back (P := plain_pickler) "Oslo" "Stockholm" oslo []
    [("Bangkok", bangkok); ("Krabi", krabi)] (store_of route) _ eq_refl _).
  - repeat constructor; simpl; intuition discriminate.
  - simpl; intuition discriminate.
Defined.

(** X15: [move_location] is idempotent: the same move made a second time
    leaves the sequence the first move gave, whatever the position. *)
Theorem move_location_idempotent {bytes : Type} {P : Pickler bytes}
  (name new_position : string) (after_place : option string)
  (s : TravelData bytes) :
  unique_names (data s) ->
  data (move_location name new_position after_place
          (move_location name new_position after_place s))
  = data (move_location name new_position after_place s).
Proof.
  intros Hd. destruct (get name (data s)) as [v|] eqn:Eg.
  - destruct (get_split _ _ _ Eg) as (l1 & l2 & E & H1).
    set (s1 := move_location name new_position after_place s).
    assert (E1 : data s1 =
      if (new_position =? "start")%string
      then update (setitem name v []) (l1 ++ l2)
      else if (new_position =? "after")%string
              && contains_opt after_place (l1 ++ l2)
      then place_after name v after_place (l1 ++ l2) []
      else setitem name v (l1 ++ l2)).
    { unfold s1. rewrite (move_location_present _ _ _ _ _ _ _ E H1).
      now rewrite data_save_data. }
    rewrite E in Hd.
    destruct (unique_names_split _ _ _ _ Hd) as (Hr & _ & H2).
    assert (Hn : ~ In name (keys (l1 ++ l2)))
      by (rewrite keys_app, in_app_iff; tauto).
    pose proof (replacement_cases name new_position after_place v _ Hr Hn) as C.
    cbn zeta in C. rewrite <- E1 in C.
    assert (R : forall p q, data s1 = p ++ (name, v) :: q -> p ++ q = l1 ++ l2 ->
                  ~ In name (keys p) ->
                  data (move_location name new_position after_place s1) = data s1).
    { intros p q Ep Epq Hp.
      rewrite (move_location_present _ _ _ _ _ _ _ Ep Hp), data_save_data.
      cbn [print data set_data]. now rewrite Epq, E1. }
    destruct C as [[_ Es]|[(_ & a & w & m1 & m2 & _ & Er & Es)|(_ & _ & Es)]].
    + apply (R [] (l1 ++ l2) Es eq_refl). simpl. tauto.
    + apply (R (m1 ++ [(a, w)]) m2).
      * rewrite Es, <- app_assoc. reflexivity.
      * rewrite Er, <- app_assoc. reflexivity.
      * rewrite Er in Hn. unique_keys.
    + apply (R (l1 ++ l2) [] Es (app_nil_r _) Hn).
  - apply get_None_contains in Eg. unfold move_location at 2.
    rewrite Eg. cbn [negb]. unfold move_location.
    cbn [print data]. now rewrite Eg.
Qed.

Lemma move_location_idempotent_witness :
  data (move_location (P := plain_pickler) "Oslo" "after" (Some "Bangkok")
          (move_location (P := plain_pickler) "Oslo" "after" (Some "Bangkok")
             (store_of route)))
  = [("Bangkok", bangkok); ("Oslo", oslo); ("Krabi", krabi)].
Proof.
  refine (move_location_idempotent (P := plain_pickler) "Oslo" "after"
            (Some "Bangkok") (store_of route) _).
  repeat constructor; simpl; intuition discriminate.
Defined.

(** ** Listing and export *)

Lemma enumerate_from (places : list string) (start : nat)
  (out : list listing_line) :
  fold_left (fun st place => (fst st + 1, snd st ++ [LineLocation (fst st) place]))
    places (Z.of_nat start, out)
  = (Z.of_nat (start + List.length places),
     out ++ map (fun p => LineLocation (Z.of_nat (fst p)) (snd p))
              (combine (seq start (List.length places)) places)).
Proof.
  revert start out. induction places as [|k r IH]; intros start out; simpl.
  - now rewrite Nat.add_0_r, app_nil_r.
  - cbn [fst snd].
    replace (Z.of_nat start + 1) with (Z.of_nat (S start)) by lia.
    rewrite IH. f_equal; [f_equal; lia|].
    now rewrite <- app_assoc.
Qed.

Lemma nth_error_enumerate (l : list string) (start n : nat) (place : string) :
  nth_error l n = Some place ->
  nth_error (combine (seq start (List.length l)) l) n = Some ((start + n)%nat, place).
Proof.
  revert start n. induction l as [|k r IH]; intros start n Hn.
  - destruct n; discriminate.
  - destruct n as [|n]; simpl in *.
    + injection Hn as ->. now rewrite Nat.add_0_r.
    + rewrite (IH (S start) n Hn). do 2 f_equal. lia.
Qed.

(** X16: [list_locations] on an empty store prints the warning alone; on a
    store with waypoints it prints the header and then one line for each
    name in sequence order, numbered from 1: the waypoint at index [n] is on
    line [n + 1] with the number [n + 1]. *)
Theorem list_locations_spec {bytes : Type} (s : TravelData bytes) :
  (data s = [] -> list_locations s = [LineNoLocations]) /\
  (data s <> [] ->
   List.length (list_locations s) = S (List.length (data s)) /\
   nth_error (list_locations s) 0 = Some LineListHeader /\
   forall n place,
     nth_error (keys (data s)) n = Some place ->
     nth_error (list_locations s) (S n)
     = Some (LineLocation (Z.of_nat n + 1) place)).
Proof.
  split.
  - intros E. unfold list_locations. now rewrite E.
  - intros Hne.
    assert (E : list_locations s
      = LineListHeader ::
        map (fun p => LineLocation (Z.of_nat (fst p)) (snd p))
          (combine (seq 1 (List.length (keys (data s)))) (keys (data s)))).
    { unfold list_locations. destruct (data s) as [|x r]; [congruence|].
      change 1 with (Z.of_nat 1). now rewrite enumerate_from. }
    rewrite E. repeat split.
    + cbn [List.length]. rewrite length_map, length_combine, length_seq.
      unfold keys. rewrite length_map. now rewrite Nat.min_id.
    + intros n place Hn. cbn [nth_error].
      rewrite nth_error_map, (nth_error_enumerate _ 1 n place Hn).
      cbn [option_map fst snd]. do 2 f_equal. lia.
Qed.

Lemma list_locations_spec_witness :
  nth_error (list_locations (store_of route)) 2
  = Some (LineLocation 2 "Bangkok").
Proof.
  refine (proj2 (proj2 (proj2 (list_locations_spec (store_of route)) _))
            1%nat "Bangkok" eq_refl).
  discriminate.
Defined.

Lemma export_rows (d : odict details) (rows : list (list cell)) :
  fold_left (fun rows kv => rows ++ [CellStr (fst kv) :: cells_of (snd kv)]) d rows
  = rows ++ map (fun kv => CellStr (fst kv) :: cells_of (snd kv)) d.
Proof.
  revert rows. induction d as [|kv r IH]; intros rows; simpl.
  - now rewrite app_nil_r.
  - rewrite IH, <- app_assoc. reflexivity.
Qed.

(** X17: [export_to_csv] writes the header row and then one row for each
    waypoint in sequence order, the name in the first column.  The row of a
    five-tuple has the six columns of the header; the row of a four-tuple
    has five, its transport column is missing. *)
Theorem export_to_csv_spec {bytes : Type} (s : TravelData bytes) :
  List.length (export_to_csv s) = S (List.length (data s)) /\
  nth_error (export_to_csv s) 0 = Some csv_header /\
  (forall n name t,
     nth_error (data s) n = Some (name, t) ->
     nth_error (export_to_csv s) (S n) = Some (CellStr name :: cells_of t)) /\
  (forall country lat lon days transport,
     List.length (CellStr country :: cells_of (Tuple5 country lat lon days transport))
     = List.length csv_header) /\
  (forall country lat lon days,
     S (List.length (CellStr country :: cells_of (Tuple4 country lat lon days)))
     = List.length csv_header).
Proof.
  unfold export_to_csv. rewrite export_rows. cbn [app]. repeat split.
  - cbn [List.length]. now rewrite length_map.
  - intros n name t Hn. cbn [nth_error].
    now rewrite nth_error_map, Hn.
Qed.

Lemma export_to_csv_spec_witness :
  nth_error (export_to_csv (store_of route)) 1
  = Some [CellStr "Oslo"; CellStr "Norway"; CellFloat 59.5; CellFloat 10.75;
          CellInt 4; CellStr "Plane"].
Proof.
  exact (proj1 (proj2 (proj2 (export_to_csv_spec (store_of route))))
           0%nat "Oslo" oslo eq_refl).
Defined.

(** ** The total distance *)

Lemma fold_left_ext_in {A B : Type} (f g : A -> B -> A) (l : list B) (a : A) :
  (forall a b, In b l -> f a b = g a b) -> fold_left f l a = fold_left g l a.
Proof.
  revert a. induction l as [|b r IH]; intros a H; simpl; [reflexivity|].
  rewrite H by now left. apply IH. intros. apply H. now right.
Qed.

Lemma get_app_l {V : Type} (k : string) (l1 l2 : odict V) :
  In k (keys l1) -> get k (l1 ++ l2) = get k l1.
Proof.
  induction l1 as [|[k' v'] r IH]; simpl; [tauto|].
  destruct (String.eqb_spec k' k); [reflexivity|].
  intros [E|H]; [congruence | now apply IH].
Qed.

Lemma location_of_In (k : string) (d : odict details) :
  In k (keys d) -> exists loc, location_of k d = Some loc.
Proof.
  intros H. apply contains_In, contains_get in H. destruct H as [t Ht].
  unfold location_of. rewrite Ht. now eexists.
Qed.

Section Distance.
Context {D : Geodesic}.

(** Inside the range of the loop every lookup succeeds. *)
Lemma add_leg_Some (d : odict details) (total : float) (i : nat) :
  (S i < List.length d)%nat ->
  exists total', add_leg d (keys d) (Some total) i = Some total'.
Proof.
  intros Hi. unfold add_leg.
  assert (Hl : List.length (keys d) = List.length d)
    by (unfold keys; apply length_map).
  destruct (nth_error (keys d) i) as [k1|] eqn:E1;
    [|apply nth_error_None in E1; lia].
  destruct (nth_error (keys d) (S i)) as [k2|] eqn:E2;
    [|apply nth_error_None in E2; lia].
  destruct (location_of_In k1 d (nth_error_In _ _ E1)) as [loc1 ->].
  destruct (location_of_In k2 d (nth_error_In _ _ E2)) as [loc2 ->].
  now eexists.
Qed.

Lemma legs_Some (d : odict details) (l : list nat) (total : float) :
  (forall i, In i l -> (S i < List.length d)%nat) ->
  exists total', fold_left (add_leg d (keys d)) l (Some total) = Some total'.
Proof.
  revert total. induction l as [|i r IH]; intros total H; cbn [fold_left].
  - now eexists.
  - destruct (add_leg_Some d total i) as [t' ->]; [apply H; now left|].
    apply IH. intros. apply H. now right.
Qed.

(** X18: [calculate_total_distance] never fails on a lookup.  With fewer
    than two waypoints it prints the warning and returns the integer [0];
    with two or more it returns a float and prints one line with it; with
    exactly two it is [0.0] plus the geodesic distance between them. *)
Theorem calculate_total_distance_returns {bytes : Type} (s : TravelData bytes) :
  ((List.length (data s) < 2)%nat ->
   calculate_total_distance s = Some (PyInt 0, [LineNotEnoughLocations])) /\
  ((2 <= List.length (data s))%nat ->
   exists total,
     calculate_total_distance s
     = Some (PyFloat total, [LineTotalDistance total])) /\
  (forall k1 t1 k2 t2, k1 <> k2 -> data s = [(k1, t1); (k2, t2)] ->
     calculate_total_distance s
     = let total := (0 + geodesic_km (details_1 t1, details_2 t1)
                                     (details_1 t2, details_2 t2))%float in
       Some (PyFloat total, [LineTotalDistance total])).
Proof.
  repeat split.
  - intros H. unfold calculate_total_distance.
    apply Nat.ltb_lt in H. now rewrite H.
  - intros H. unfold calculate_total_distance.
    apply Nat.ltb_ge in H. rewrite H.
    destruct (legs_Some (data s) (seq 0 (List.length (keys (data s)) - 1)) 0)
      as [total ->].
    + intros i Hi. apply in_seq in Hi. unfold keys in Hi.
      rewrite length_map in Hi. apply Nat.ltb_ge in H. lia.
    + now exists total.
  - intros k1 t1 k2 t2 N E. unfold calculate_total_distance. rewrite E.
    cbn. unfold location_of. cbn. rewrite String.eqb_refl.
    destruct (String.eqb_spec k1 k2); [contradiction|].
    now rewrite String.eqb_refl.
Qed.

(** X19: a waypoint added at the end of a route of two or more adds the last
    leg, and nothing else, to the total distance: the new total is the old
    one plus the geodesic distance from the waypoint that was last to the
    new one. *)
Theorem calculate_total_distance_last_leg {bytes : Type}
  (s1 s2 : TravelData bytes) (d : odict details) (k0 k : string)
  (t0 t : details) (total : float) (line : list distance_line) :
  data s1 = d ++ [(k0, t0)] ->
  data s2 = data s1 ++ [(k, t)] ->
  unique_names (data s2) ->
  calculate_total_distance s1 = Some (PyFloat total, line) ->
  calculate_total_distance s2
  = let total' := (total + geodesic_km (details_1 t0, details_2 t0)
                                        (details_1 t, details_2 t))%float in
    Some (PyFloat total', [LineTotalDistance total']).
Proof.
  intros E1 E2 Hd H1. unfold calculate_total_distance in *.
  assert (Hl1 : List.length (data s1) = S (List.length d))
    by (rewrite E1, length_app; simpl; lia).
  assert (Hl2 : List.length (data s2) = S (S (List.length d)))
    by (rewrite E2, length_app, Hl1; simpl; lia).
  destruct (List.length (data s1) <? 2)%nat eqn:Hlt; [discriminate|].
  apply Nat.ltb_ge in Hlt.
  assert (Hlt2 : (List.length (data s2) <? 2)%nat = false)
    by (apply Nat.ltb_ge; lia).
  rewrite Hlt2. cbn zeta in *.
  assert (Hk1 : List.length (keys (data s1)) = S (List.length d))
    by (unfold keys; now rewrite length_map).
  assert (Hk2 : List.length (keys (data s2)) = S (S (List.length d)))
    by (unfold keys; now rewrite length_map).
  rewrite Hk1 in H1. rewrite Hk2.
  replace (S (S (List.length d)) - 1)%nat with (S (List.length d - 0))%nat by lia.
  replace (S (List.length d) - 1)%nat with (List.length d - 0)%nat in H1 by lia.
  rewrite Nat.sub_0_r in *. rewrite seq_S, fold_left_app. cbn [Nat.add].
  assert (Hfold :
    fold_left (add_leg (data s2) (keys (data s2))) (seq 0 (List.length d))
      (Some 0%float)
    = fold_left (add_leg (data s1) (keys (data s1))) (seq 0 (List.length d))
        (Some 0%float)).
  { apply fold_left_ext_in. intros acc i Hi. apply in_seq in Hi.
    unfold add_leg. rewrite E2, keys_app.
    rewrite !nth_error_app1 by lia.
    destruct acc as [acc|]; [|reflexivity].
    destruct (nth_error (keys (data s1)) i) as [k1|] eqn:N1; [|reflexivity].
    destruct (nth_error (keys (data s1)) (S i)) as [k2|] eqn:N2; [|reflexivity].
    unfold location_of.
    now rewrite !get_app_l by (eapply nth_error_In; eassumption). }
  rewrite Hfold.
  destruct (fold_left (add_leg (data s1) (keys (data s1)))
              (seq 0 (List.length d)) (Some 0%float)) as [x|];
    [|discriminate].
  injection H1 as -> _. cbn [fold_left]. unfold add_leg.
  assert (K2 : keys (data s2) = keys d ++ [k0; k]).
  { rewrite E2, E1, !keys_app, <- app_assoc. reflexivity. }
  assert (Hld : List.length (keys d) = List.length d)
    by (unfold keys; apply length_map).
  rewrite K2.
  rewrite (nth_error_app2 (keys d)) by lia.
  rewrite (nth_error_app2 (keys d)) by lia.
  rewrite Hld, Nat.sub_diag.
  replace (S (List.length d) - List.length d)%nat with 1%nat by lia.
  cbn [nth_error]. unfold location_of.
  rewrite E2, E1 in Hd |- *.
  assert (G0 : get k0 ((d ++ [(k0, t0)]) ++ [(k, t)]) = Some t0).
  { rewrite <- app_assoc. apply get_mid. unique_keys. }
  assert (G1 : get k ((d ++ [(k0, t0)]) ++ [(k, t)]) = Some t).
  { apply get_mid. unique_keys. }
  now rewrite G0, G1.
Qed.

End Distance.

Lemma calculate_total_distance_returns_witness :
  calculate_total_distance (D := flat_geodesic) (store_of [("Oslo", oslo)])
  = Some (PyInt 0, [LineNotEnoughLocations]).
Proof.
  refine (proj1 (calculate_total_distance_returns (D := flat_geodesic)
                   (store_of [("Oslo", oslo)])) _).
  simpl. lia.
Defined.

Lemma calculate_total_distance_last_leg_witness :
  calculate_total_distance (D := flat_geodesic)
    (store_of (route ++ [("Hue", Tuple4 "Vietnam" 16.5 107.5 2)]))
  = Some (PyFloat 96.75, [LineTotalDistance 96.75]).
Proof.
  refine (calculate_total_distance_last_leg (D := flat_geodesic)
    (store_of route) (store_of (route ++ [("Hue", Tuple4 "Vietnam" 16.5 107.5 2)]))
    [("Oslo", oslo); ("Bangkok", bangkok)] "Krabi" "Hue" krabi
    (Tuple4 "Vietnam" 16.5 107.5 2) 88.125 [LineTotalDistance 88.125]
    eq_refl eq_refl _ _).
  - repeat constructor; simpl; intuition discriminate.
  - vm_compute. reflexivity.
Defined.
